(** * The audio playback controller of src/App.js (AudioPlayerProvider)

    A shallow embedding of the provider component that owns the playback
    state: the React state cells, the refs to the media element and to the
    interval handle, and the operations it publishes through the context
    value (playSong, pauseSong, resumeSong, togglePlayPause, playNext,
    playPrevious, seekTo, toggleMute, toggleShuffle, toggleRepeat, addToQueue,
    clearQueue).  The audio context and the synthesizers (generateAudioUrl,
    createSimpleBeep) are left out: no operation calls them, and they
    live in the Web Audio API.  After the controller come formatTime, the WAV
    writer audioBufferToWav, the play button of a song card (handlePlaySong)
    and the genre handlers of the settings page.

    Conventions of the embedding.
    - JavaScript numbers that hold times and volumes are rationals (Q); array
      indices are integers (Z), since the callers may pass any integer
      (findIndex returns -1).  Where a setter of the media element throws,
      the model has the throw: the position setter on a number that is not
      finite (the argument of seekTo is a [Number]), the volume setter on a
      value outside 0 to 1.
    - An async function is cut at its await points.  The code up to the first
      await is one function in the state monad [M]; it returns the suspended
      rest as a [Pending] value.  Each way a promise can settle has a function
      of its own that runs the code up to the next await.
    - A callback created by useCallback reads the state cells of the render
      that created it.  Such a function takes that render's state as an
      explicit argument [r]; state writes go to the live store.
    - The browser is kept as far as the controller can observe it: the fields of
      the media element it reads and writes, the table of active intervals,
      and a trace of the outward effects (toasts, HTTP requests, media element
      method calls).  Console output is not recorded. *)

From Stdlib Require Import ZArith QArith Qround String Ascii DecimalString List Bool Lia.
From stdpp Require Import base option list gmap.
Import ListNotations.

Local Open Scope Z_scope.
Local Open Scope string_scope.

(** ** Data model *)

(** A track descriptor as the controller reads it (song.name, song.artist,
    song.preview_url, song.duration_ms, song.genres, song.spotify_id). *)
Record Song := mkSong {
  spotify_id : string;
  name : string;
  artist : string;
  duration_ms : Z;
  genres : list string;
  preview_url : option string
}.

(** The React state cells of AudioPlayerProvider (lines 67-77). *)
Record PlaybackState := mkPlaybackState {
  currentSong : option Song;
  isPlaying : bool;
  currentTime : Q;
  duration : Q;
  volume : Q;
  isMuted : bool;
  isShuffled : bool;
  isRepeat : bool;
  queue : list Song;
  currentIndex : Z;
  isPlayerMinimized : bool
}.

(** The fields of the HTMLAudioElement the controller touches.  An unset src
    is the empty string; a duration that is not known yet (NaN) is None. *)
Module Audio.
Record t := mk {
  src : string;
  currentTime : Q;
  paused : bool;
  crossOrigin : option string;
  duration : option Q;
  volume : Q;
  onerror : bool
}.
End Audio.

(** The callback of an interval: the transport poll of lines 452-456 (and
    475-479, 517-521), or the simulated cursor of lines 530-539 (and 550-559),
    which closes over the duration and the handleSongEnd of resumeSong's
    render. *)
Inductive Timer :=
| PollTransport
| SimulatedCursor (dur : Q) (h : PlaybackState).

Inductive ToastKind := Info | Success | Error.

(** Outward effects, recorded most recent first. *)
Inductive Event :=
| Toast (k : ToastKind) (msg : string)
| HttpGet (url : string)
| MediaPause
| MediaLoad
| MediaPlay.

(** Everything the provider owns or reaches: the state cells, audioRef,
    intervalRef, the browser's table of active intervals with its next
    handle, and the trace. *)
Record World := mkWorld {
  ps : PlaybackState;
  audioRef : option Audio.t;
  intervalRef : option positive;
  timers : gmap positive Timer;
  nextTimer : positive;
  trace : list Event
}.

(** A number as seekTo can receive it: finite, or one of the three values
    that are not. *)
Inductive Number :=
| Finite (q : Q)
| NaN
| Infinity
| NegInfinity.

(** How a call of seekTo ends. *)
Inductive SeekResult :=
| Published            (* both lines ran *)
| Threw                (* line 608 threw a TypeError *)
| PublishedNonFinite.  (* line 610 ran on a number that is not finite *)

(** The suspended rest of an async operation, named by the await it stands at. *)
Inductive Pending :=
| AwaitSearch (song : Song)                       (* line 363, axios.get *)
| AwaitCanPlay (song : Song) (audioUrl : string)  (* line 423, canplay or error *)
| AwaitPlay (song : Song) (audioUrl : string)     (* line 444, play() *)
| AwaitRetry (song : Song) (audioUrl : string)    (* line 467, play() again *)
| AwaitResume (dur : Q) (h : PlaybackState).      (* line 510, play() in resumeSong *)

(** ** The state monad *)

Definition M (A : Type) : Type := World → A * World.

#[global] Instance M_ret : MRet M := λ A (x : A) w, (x, w).
#[global] Instance M_bind : MBind M := λ A B (f : A → M B) (c : M A) w,
  let '(x, w') := c w in f x w'.

Definition exec {A} (c : M A) (w : World) : World := snd (c w).
Definition result {A} (c : M A) (w : World) : A := fst (c w).

Definition gets {A} (f : World → A) : M A := λ w, (f w, w).
Definition modify (f : World → World) : M unit := λ w, (tt, f w).

Definition with_ps (f : PlaybackState → PlaybackState) : M unit :=
  modify (λ w, mkWorld (f (ps w)) (audioRef w) (intervalRef w) (timers w) (nextTimer w) (trace w)).

Definition emit (e : Event) : M unit :=
  modify (λ w, mkWorld (ps w) (audioRef w) (intervalRef w) (timers w) (nextTimer w) (e :: trace w)).

(** A write to a field of audioRef.current, under a guard that it is not null. *)
Definition with_audio (f : Audio.t → Audio.t) : M unit :=
  modify (λ w, mkWorld (ps w) (f <$> audioRef w) (intervalRef w) (timers w) (nextTimer w) (trace w)).

(** *** React state setters *)

Definition setCurrentSong (v : option Song) : M unit :=
  with_ps (λ s, mkPlaybackState v (isPlaying s) (currentTime s) (duration s) (volume s)
    (isMuted s) (isShuffled s) (isRepeat s) (queue s) (currentIndex s) (isPlayerMinimized s)).
Definition setIsPlaying (v : bool) : M unit :=
  with_ps (λ s, mkPlaybackState (currentSong s) v (currentTime s) (duration s) (volume s)
    (isMuted s) (isShuffled s) (isRepeat s) (queue s) (currentIndex s) (isPlayerMinimized s)).
Definition setCurrentTime (f : Q → Q) : M unit :=
  with_ps (λ s, mkPlaybackState (currentSong s) (isPlaying s) (f (currentTime s)) (duration s) (volume s)
    (isMuted s) (isShuffled s) (isRepeat s) (queue s) (currentIndex s) (isPlayerMinimized s)).
Definition setDuration (v : Q) : M unit :=
  with_ps (λ s, mkPlaybackState (currentSong s) (isPlaying s) (currentTime s) v (volume s)
    (isMuted s) (isShuffled s) (isRepeat s) (queue s) (currentIndex s) (isPlayerMinimized s)).
Definition setVolume (v : Q) : M unit :=
  with_ps (λ s, mkPlaybackState (currentSong s) (isPlaying s) (currentTime s) (duration s) v
    (isMuted s) (isShuffled s) (isRepeat s) (queue s) (currentIndex s) (isPlayerMinimized s)).
Definition setIsMuted (f : bool → bool) : M unit :=
  with_ps (λ s, mkPlaybackState (currentSong s) (isPlaying s) (currentTime s) (duration s) (volume s)
    (f (isMuted s)) (isShuffled s) (isRepeat s) (queue s) (currentIndex s) (isPlayerMinimized s)).
Definition setIsShuffled (f : bool → bool) : M unit :=
  with_ps (λ s, mkPlaybackState (currentSong s) (isPlaying s) (currentTime s) (duration s) (volume s)
    (isMuted s) (f (isShuffled s)) (isRepeat s) (queue s) (currentIndex s) (isPlayerMinimized s)).
Definition setIsRepeat (f : bool → bool) : M unit :=
  with_ps (λ s, mkPlaybackState (currentSong s) (isPlaying s) (currentTime s) (duration s) (volume s)
    (isMuted s) (isShuffled s) (f (isRepeat s)) (queue s) (currentIndex s) (isPlayerMinimized s)).
Definition setQueue (f : list Song → list Song) : M unit :=
  with_ps (λ s, mkPlaybackState (currentSong s) (isPlaying s) (currentTime s) (duration s) (volume s)
    (isMuted s) (isShuffled s) (isRepeat s) (f (queue s)) (currentIndex s) (isPlayerMinimized s)).
Definition setCurrentIndex (v : Z) : M unit :=
  with_ps (λ s, mkPlaybackState (currentSong s) (isPlaying s) (currentTime s) (duration s) (volume s)
    (isMuted s) (isShuffled s) (isRepeat s) (queue s) v (isPlayerMinimized s)).
Definition setIsPlayerMinimized (v : bool) : M unit :=
  with_ps (λ s, mkPlaybackState (currentSong s) (isPlaying s) (currentTime s) (duration s) (volume s)
    (isMuted s) (isShuffled s) (isRepeat s) (queue s) (currentIndex s) v).

(** *** The media element *)

Definition media_pause : M unit :=
  with_audio (λ a, Audio.mk (Audio.src a) (Audio.currentTime a) true (Audio.crossOrigin a)
    (Audio.duration a) (Audio.volume a) (Audio.onerror a));;
  emit MediaPause.
(** play() clears paused at the call; how its promise settles is a matter of
    the continuation. *)
Definition media_play : M unit :=
  with_audio (λ a, Audio.mk (Audio.src a) (Audio.currentTime a) false (Audio.crossOrigin a)
    (Audio.duration a) (Audio.volume a) (Audio.onerror a));;
  emit MediaPlay.
Definition media_load : M unit := emit MediaLoad.
Definition media_set_currentTime (t : Q) : M unit :=
  with_audio (λ a, Audio.mk (Audio.src a) t (Audio.paused a) (Audio.crossOrigin a)
    (Audio.duration a) (Audio.volume a) (Audio.onerror a)).
Definition media_set_crossOrigin (c : option string) : M unit :=
  with_audio (λ a, Audio.mk (Audio.src a) (Audio.currentTime a) (Audio.paused a) c
    (Audio.duration a) (Audio.volume a) (Audio.onerror a)).
Definition media_set_src (u : string) : M unit :=
  with_audio (λ a, Audio.mk u (Audio.currentTime a) (Audio.paused a) (Audio.crossOrigin a)
    (Audio.duration a) (Audio.volume a) (Audio.onerror a)).
(** The volume setter takes a value from 0 to 1; on any other it throws an
    IndexSizeError and the volume stays.  The result tells whether the value
    was stored. *)
Definition in_unit_range (v : Q) : bool := Qle_bool 0 v && Qle_bool v 1.

Definition media_set_volume (v : Q) : M bool :=
  if in_unit_range v then
    with_audio (λ a, Audio.mk (Audio.src a) (Audio.currentTime a) (Audio.paused a)
      (Audio.crossOrigin a) (Audio.duration a) v (Audio.onerror a));;
    mret true
  else mret false.
Definition media_set_onerror : M unit :=
  with_audio (λ a, Audio.mk (Audio.src a) (Audio.currentTime a) (Audio.paused a) (Audio.crossOrigin a)
    (Audio.duration a) (Audio.volume a) true).

(** *** Intervals *)

(** setInterval: the browser hands out the next handle and keeps the callback
    in its table of active intervals.  Handles are positive, hence truthy. *)
Definition setInterval (cb : Timer) : M positive := λ w,
  (nextTimer w,
   mkWorld (ps w) (audioRef w) (intervalRef w) (<[nextTimer w := cb]> (timers w))
     (Pos.succ (nextTimer w)) (trace w)).

Definition clearInterval (h : positive) : M unit :=
  modify (λ w, mkWorld (ps w) (audioRef w) (intervalRef w) (delete h (timers w)) (nextTimer w) (trace w)).

Definition set_intervalRef (h : positive) : M unit :=
  modify (λ w, mkWorld (ps w) (audioRef w) (Some h) (timers w) (nextTimer w) (trace w)).

(** [if (intervalRef.current) clearInterval(intervalRef.current)] *)
Definition clear_current_interval : M unit :=
  r ← gets intervalRef;
  match r with
  | Some h => clearInterval h
  | None => mret tt
  end.

(** The block that every success path repeats (lines 449-456, 472-479, 514-521,
    527-539, 547-559): clear the handle in intervalRef, then store a new
    interval there. *)
Definition start_progress_tracking (cb : Timer) : M unit :=
  clear_current_interval;;
  h ← setInterval cb;
  set_intervalRef h.

(** *** Toasts and strings *)

Definition toast (k : ToastKind) (msg : string) : M unit := emit (Toast k msg).

Definition dquote : string := String (ascii_of_nat 34) EmptyString.

(** Truthiness of a string-valued expression that may be undefined or null. *)
Definition truthy (o : option string) : bool :=
  match o with
  | Some s => negb (String.eqb s EmptyString)
  | None => false
  end.

Definition hex_digit (n : N) : ascii :=
  ascii_of_N (if (n <? 10)%N then 48 + n else 55 + n)%N.

(** encodeURIComponent on a byte string: the unreserved characters stay, every
    other byte becomes a percent escape. *)
Definition uri_unreserved (c : ascii) : bool :=
  let n := N_of_ascii c in
  ((48 <=? n) && (n <=? 57) || (65 <=? n) && (n <=? 90) || (97 <=? n) && (n <=? 122)
   || (n =? 45) || (n =? 95) || (n =? 46) || (n =? 33) || (n =? 126) || (n =? 42)
   || (n =? 39) || (n =? 40) || (n =? 41))%N.

Fixpoint encodeURIComponent (s : string) : string :=
  match s with
  | EmptyString => EmptyString
  | String c rest =>
      if uri_unreserved c then String c (encodeURIComponent rest)
      else String "%" (String (hex_digit (N_of_ascii c / 16)) (String (hex_digit (N_of_ascii c mod 16))
             (encodeURIComponent rest)))
  end.

Definition quoted (s : string) : string := dquote ++ s ++ dquote.

(** [d || fallback] on numbers: NaN and 0 are falsy. *)
Definition number_or (d : option Q) (fallback : Q) : Q :=
  match d with
  | Some q => if Qeq_bool q 0 then fallback else q
  | None => fallback
  end.

(** [queue[i]]: undefined outside the array. *)
Definition js_index (q : list Song) (i : Z) : option Song :=
  if (i <? 0)%Z then None else q !! Z.to_nat i.

(** ** playSong (lines 341-493) *)

(** What axios.get settles with: response.data.results given as the
    previewUrl of each entry (None where the field is missing; a missing
    results array reads as the empty one), or a rejection. *)
Inductive SearchOutcome :=
| SearchResults (results : list (option string))
| SearchError.

(** How the promise of audio.play() settles; a rejection carries
    error.message. *)
Inductive Settled :=
| Resolved
| Rejected (message : option string).

(** The catch block of lines 488-492. *)
Definition play_failed (song : Song) (message : option string) : M unit :=
  toast Error ("Failed to play " ++ quoted (name song) ++ ". "
               ++ (if truthy message then default EmptyString message else "Unknown error"));;
  setIsPlaying false.

(** Lines 399-440, up to the await of the load promise: the previous playback
    is stopped and rewound, the source is bound, the error handler is set and
    load() is called.  Without a media element or a source nothing happens
    and the function ends. *)
Definition bind_and_load (song : Song) (audioUrl : option string) : M (option Pending) :=
  ref ← gets audioRef;
  match ref, audioUrl with
  | Some _, Some url =>
      if truthy audioUrl then
        media_pause;;
        media_set_currentTime 0;;
        media_set_crossOrigin (Some "anonymous");;
        media_set_src url;;
        media_set_onerror;;
        media_load;;
        mret (Some (AwaitCanPlay song url))
      else mret None
  | _, _ => mret None
  end.

(** Lines 341-363 and 395-440: the synchronous start of playSong.  An absent
    songQueue argument is the empty list, an absent index is 0. *)
Definition playSong (song : option Song) (songQueue : list Song) (index : Z) : M (option Pending) :=
  match song with
  | None => mret None
  | Some song =>
      setCurrentSong (Some song);;
      setQueue (λ _, if (0 <? length songQueue)%nat then songQueue else [song]);;
      setCurrentIndex index;;
      setIsPlaying false;;
      let audioUrl := preview_url song in
      if negb (truthy audioUrl) then
        toast Info ("Searching for preview of " ++ quoted (name song) ++ "...");;
        emit (HttpGet ("https://itunes.apple.com/search?term="
                       ++ encodeURIComponent (name song ++ " " ++ artist song)
                       ++ "&media=music&entity=song&limit=1"));;
        mret (Some (AwaitSearch song))
      else bind_and_load song audioUrl
  end.

Section Backend.

(** process.env.REACT_APP_BACKEND_URL (line 41), fixed at build time. *)
Context (BACKEND_URL : string).

Definition API : string := BACKEND_URL ++ "/api".

(** Lines 364-394, then 399-440: the search has settled. *)
Definition playSong_searched (song : Song) (o : SearchOutcome) : M (option Pending) :=
  match o with
  | SearchError =>
      toast Error ("Preview not available for " ++ quoted (name song) ++ ".");;
      setIsPlaying false;;
      mret None
  | SearchResults results =>
      audioUrl ← match results with
                 | itunesPreviewUrl :: _ =>
                     match itunesPreviewUrl with
                     | Some u =>
                         if truthy itunesPreviewUrl then
                           toast Success "Found preview from iTunes!";;
                           mret (Some (API ++ "/audio/proxy?url=" ++ encodeURIComponent u))
                         else mret None
                     | None => mret None
                     end
                 | [] => mret None
                 end;
      if negb (truthy audioUrl) then
        toast Error ("No preview available for " ++ quoted (name song)
                     ++ ". Try opening in Spotify to listen.");;
        setIsPlaying false;;
        mret None
      else bind_and_load song audioUrl
  end.

End Backend.

(** handleAudioError (lines 335-339), the error listener added at mount. *)
Definition handleAudioError : M unit :=
  toast Error "Failed to play audio";;
  setIsPlaying false.

(** The onerror handler that playSong installs (lines 411-420). *)
Definition onerror_handler : M unit :=
  toast Error "Failed to load audio preview. The track may not be available for streaming.";;
  setIsPlaying false.

(** An error event of the media element [a]: the listener from mount, then
    the onerror handler when one is set. *)
Definition media_error_event (a : Audio.t) : M unit :=
  handleAudioError;;
  if Audio.onerror a then onerror_handler else mret tt.

(** Lines 423-444: the load promise has settled.  On canplay the promise
    resolves and play() is called; on an error event the listeners run, the
    promise rejects with the event, which has no message, and the catch block
    of line 488 ends the attempt. *)
Definition playSong_loaded (a : Audio.t) (song : Song) (audioUrl : string) (canplay : bool)
  : M (option Pending) :=
  if canplay then
    media_play;;
    mret (Some (AwaitPlay song audioUrl))
  else
    media_error_event a;;
    play_failed song None;;
    mret None.

(** Lines 445-458 (and 468-481): play() has resolved. *)
Definition playSong_started (a : Audio.t) (song : Song) : M unit :=
  setIsPlaying true;;
  setDuration (number_or (Audio.duration a) (inject_Z (duration_ms song) / 1000)%Q);;
  start_progress_tracking PollTransport;;
  toast Success ("🎵 Now playing: " ++ name song ++ " by " ++ artist song).

(** Lines 444-467: the first play() has settled; a rejection is answered by
    one more attempt without crossOrigin. *)
Definition playSong_played (a : Audio.t) (song : Song) (audioUrl : string) (o : Settled)
  : M (option Pending) :=
  match o with
  | Resolved => playSong_started a song;; mret None
  | Rejected _ =>
      media_set_crossOrigin None;;
      media_set_src audioUrl;;
      media_load;;
      media_play;;
      mret (Some (AwaitRetry song audioUrl))
  end.

(** Lines 467-492: the second play() has settled; its rejection is thrown on
    to the catch block of line 488. *)
Definition playSong_retried (a : Audio.t) (song : Song) (o : Settled) : M unit :=
  match o with
  | Resolved => playSong_started a song
  | Rejected message => play_failed song message
  end.

(** ** The other operations *)

(** pauseSong (lines 495-503). *)
Definition pauseSong : M unit :=
  ref ← gets audioRef;
  match ref with
  | Some _ => media_pause
  | None => mret tt
  end;;
  setIsPlaying false;;
  clear_current_interval.

(** The simulated resume of lines 526-541 and 546-561. *)
Definition simulate_resume (dur : Q) (h : PlaybackState) : M unit :=
  setIsPlaying true;;
  start_progress_tracking (SimulatedCursor dur h);;
  toast Success "▶️ Resumed playback (Demo mode)".

(** resumeSong (lines 505-564) up to its await; [r] is the render that
    created it (it reads currentSong and duration), [h] the render of the
    handleSongEnd it captured. *)
Definition resumeSong (r h : PlaybackState) : M (option Pending) :=
  match currentSong r with
  | None => mret None
  | Some _ =>
      ref ← gets audioRef;
      match ref with
      | Some a =>
          if truthy (Some (Audio.src a)) then
            media_play;;
            mret (Some (AwaitResume (duration r) h))
          else simulate_resume (duration r) h;; mret None
      | None => simulate_resume (duration r) h;; mret None
      end
  end.

(** Lines 510-523 and 543-562: the play() of resumeSong has settled. *)
Definition resumeSong_played (dur : Q) (h : PlaybackState) (o : Settled) : M unit :=
  match o with
  | Resolved =>
      setIsPlaying true;;
      start_progress_tracking PollTransport;;
      toast Success "▶️ Resumed playback"
  | Rejected _ => simulate_resume dur h
  end.

(** togglePlayPause (lines 566-572). *)
Definition togglePlayPause (r h : PlaybackState) : M (option Pending) :=
  if isPlaying r then pauseSong;; mret None
  else match currentSong r with
       | Some _ => resumeSong r h
       | None => mret None
       end.

(** [Math.floor(Math.random() * n)], [u] being what Math.random() returned. *)
Definition random_index (u : Q) (n : nat) : Z := Qfloor (u * inject_Z (Z.of_nat n)).

(** playNext (lines 574-588); the remainder operator of JavaScript truncates,
    as Z.rem does. *)
Definition playNext (r : PlaybackState) (u : Q) : M (option Pending) :=
  if (length (queue r) =? 0)%nat then mret None
  else
    let nextIndex :=
      if isShuffled r then random_index u (length (queue r))
      else Z.rem (currentIndex r + 1) (Z.of_nat (length (queue r))) in
    match js_index (queue r) nextIndex with
    | Some nextSong => playSong (Some nextSong) (queue r) nextIndex
    | None => mret None
    end.

(** playPrevious (lines 590-604). *)
Definition playPrevious (r : PlaybackState) (u : Q) : M (option Pending) :=
  if (length (queue r) =? 0)%nat then mret None
  else
    let prevIndex :=
      if isShuffled r then random_index u (length (queue r))
      else if (currentIndex r - 1 <? 0)%Z then Z.of_nat (length (queue r)) - 1
           else currentIndex r - 1 in
    match js_index (queue r) prevIndex with
    | Some prevSong => playSong (Some prevSong) (queue r) prevIndex
    | None => mret None
    end.

(** handleSongEnd (lines 327-333), created in render [h]. *)
Definition handleSongEnd (h : PlaybackState) (u : Q) : M (option Pending) :=
  if isRepeat h then playSong (currentSong h) [] 0
  else playNext h u.

(** seekTo (lines 606-611).  The currentTime setter of the element throws
    a TypeError on a number that is not finite, and line 610 is not reached
    then.  Without an element such a number goes to setCurrentTime; the state
    cell of this model holds finite numbers only, so the call is reported as
    [PublishedNonFinite] and the cell is left alone. *)
Definition seekTo (time : Number) : M SeekResult :=
  ref ← gets audioRef;
  match time, ref with
  | Finite t, Some _ => media_set_currentTime t;; setCurrentTime (λ _, t);; mret Published
  | Finite t, None => setCurrentTime (λ _, t);; mret Published
  | _, Some _ => mret Threw
  | _, None => mret PublishedNonFinite
  end.

(** toggleMute, toggleShuffle, toggleRepeat (lines 613-625). *)
Definition toggleMute : M unit := setIsMuted negb.

Definition toggleShuffle (r : PlaybackState) : M unit :=
  setIsShuffled negb;;
  toast Success ("Shuffle " ++ (if negb (isShuffled r) then "enabled" else "disabled")).

Definition toggleRepeat (r : PlaybackState) : M unit :=
  setIsRepeat negb;;
  toast Success ("Repeat " ++ (if negb (isRepeat r) then "enabled" else "disabled")).

Definition string_of_nat (n : nat) : string :=
  DecimalString.NilZero.string_of_uint (Nat.to_uint n).

(** addToQueue (lines 627-631): one song or an array of songs. *)
Definition addToQueue (songs : Song + list Song) : M unit :=
  let songsArray := match songs with inl s => [s] | inr l => l end in
  setQueue (λ prev, (prev ++ songsArray)%list);;
  toast Success ("Added " ++ string_of_nat (length songsArray) ++ " song(s) to queue").

(** clearQueue (lines 633-637). *)
Definition clearQueue : M unit :=
  setQueue (λ _, []);;
  setCurrentIndex 0;;
  toast Success "Queue cleared".

(** The body of the effect of lines 130-134; the result is false when the
    volume setter threw. *)
Definition apply_volume : M bool :=
  s ← gets ps;
  ref ← gets audioRef;
  match ref with
  | Some _ => media_set_volume (if isMuted s then 0 else volume s)
  | None => mret true
  end.

(** The element that [new Audio()] gives, with the two fields set at lines
    87-88. *)
Definition new_Audio : Audio.t :=
  Audio.mk EmptyString 0 true (Some "anonymous") None 1 false.

(** The mount effect (lines 84-119) and its cleanup (lines 120-126). *)
Definition mount : M unit :=
  modify (λ w, mkWorld (ps w)
                 (match audioRef w with Some a => Some a | None => Some new_Audio end)
                 (intervalRef w) (timers w) (nextTimer w) (trace w)).

Definition unmount : M unit := clear_current_interval.

(** The effect of lines 130-134, run at mount and after volume or isMuted
    changed.  An exception in an effect is an uncaught error of the render:
    React unmounts the provider, and the cleanup of the mount effect runs. *)
Definition volume_effect : M unit :=
  apply_volume ≫= λ stored : bool,
  if stored then mret tt else unmount.

(** The error listeners that the load promises still out have registered
    (lines 430-437), in the order of their registration: each rejects its
    promise with the event, which has no message, and the catch block of line
    488 runs for it. *)
Fixpoint reject_loads (l : list Pending) : M unit :=
  match l with
  | [] => mret tt
  | AwaitCanPlay song _ :: rest => play_failed song None;; reject_loads rest
  | _ :: rest => reject_loads rest
  end.

Definition awaits_load (p : Pending) : bool :=
  match p with
  | AwaitCanPlay _ _ => true
  | _ => false
  end.

(** The promises that an error event of the element does not settle. *)
Definition other_than_loads (l : list Pending) : list Pending :=
  List.filter (λ p, negb (awaits_load p)) l.

(** The toasts of those catch blocks, the newest first. *)
Fixpoint load_failure_toasts (l : list Pending) : list Event :=
  match l with
  | [] => []
  | AwaitCanPlay song _ :: rest =>
      (load_failure_toasts rest
       ++ [Toast Error ("Failed to play " ++ quoted (name song) ++ ". Unknown error")])%list
  | _ :: rest => load_failure_toasts rest
  end.

(** An interval fires. *)
Definition tick (cb : Timer) (u : Q) : M (option Pending) :=
  match cb with
  | PollTransport =>
      ref ← gets audioRef;
      match ref with
      | Some a =>
          if negb (Audio.paused a) then setCurrentTime (λ _, Audio.currentTime a) else mret tt
      | None => mret tt
      end;;
      mret None
  | SimulatedCursor dur h =>
      prev ← gets (λ w, currentTime (ps w));
      let newTime := (prev + 1)%Q in
      if Qle_bool dur newTime then
        p ← handleSongEnd h u;
        setCurrentTime (λ _, 0%Q);;
        mret p
      else setCurrentTime (λ _, newTime);; mret None
  end.

(** The state of the first render (lines 67-77) and the world before mount. *)
Definition initial_state : PlaybackState :=
  mkPlaybackState None false 0 0 (7 # 10) false false false [] 0 false.

Definition initial_world : World :=
  mkWorld initial_state None None ∅ 1%positive [].

(** ** The controller as a transition system *)

(** The live operations and the promises in flight. *)
Record System := mkSystem {
  world : World;
  pending : list Pending
}.

Inductive Outcome :=
| SearchSettled (o : SearchOutcome)
| LoadSettled (canplay : bool)
| PlaySettled (o : Settled).

(** What the user interface, the browser and the network can do.  An
    operation called from the interface reads the current render; [h] is the
    render of the handleSongEnd that resumeSong has captured, [u] what
    Math.random() returns if it is asked.  SeekTo carries a finite time; what
    seekTo does on the other numbers is part of its definition. *)
Inductive Label :=
| Mount
| Unmount
| PlaySong (song : option Song) (songQueue : list Song) (index : Z)
| PauseSong
| ResumeSong (h : PlaybackState)
| TogglePlayPause (h : PlaybackState)
| PlayNext (u : Q)
| PlayPrevious (u : Q)
| SeekTo (time : Q)
| SetVolume (v : Q)
| ToggleMute
| ToggleShuffle
| ToggleRepeat
| AddToQueue (songs : Song + list Song)
| ClearQueue
| SetIsPlayerMinimized (b : bool)
| Settle (k : nat) (o : Outcome)
| Tick (handle : positive) (u : Q)
| LoadedMetadata (d : Q)
| MediaProgress (t : Q)
| MediaEnded (u : Q)
| MediaError.

Definition option_list {A} (o : option A) : list A :=
  match o with
  | Some x => [x]
  | None => []
  end.

(** Run the synchronous part of an operation; what it awaits joins the
    promises in flight. *)
Definition spawn (c : M (option Pending)) (s : System) : System :=
  let '(p, w) := c (world s) in
  mkSystem w (pending s ++ option_list p)%list.

Definition run (c : M unit) (s : System) : System :=
  mkSystem (exec c (world s)) (pending s).

Section Transitions.

Context (BACKEND_URL : string).

(** The continuation of a suspended operation for a given outcome, [ref]
    being audioRef.current.  The promises of the media element settle only
    where the element exists. *)
Definition continuation (ref : option Audio.t) (p : Pending) (o : Outcome)
  : option (M (option Pending)) :=
  match p, o, ref with
  | AwaitSearch song, SearchSettled r, _ => Some (playSong_searched BACKEND_URL song r)
  | AwaitCanPlay song url, LoadSettled c, Some a => Some (playSong_loaded a song url c)
  | AwaitPlay song url, PlaySettled r, Some a => Some (playSong_played a song url r)
  | AwaitRetry song _, PlaySettled r, Some a => Some (playSong_retried a song r;; mret None)
  | AwaitResume dur h, PlaySettled r, Some _ => Some (resumeSong_played dur h r;; mret None)
  | _, _, _ => None
  end.

Definition settle (p : Pending) (o : Outcome) (w : World) : option (option Pending * World) :=
  c ← continuation (audioRef w) p o;
  Some (c w).

Definition step (l : Label) (s : System) : option System :=
  let r := ps (world s) in
  match l with
  | Mount => Some (run (mount;; volume_effect) s)
  | Unmount => Some (run unmount s)
  | PlaySong song songQueue index => Some (spawn (playSong song songQueue index) s)
  | PauseSong => Some (run pauseSong s)
  | ResumeSong h => Some (spawn (resumeSong r h) s)
  | TogglePlayPause h => Some (spawn (togglePlayPause r h) s)
  | PlayNext u => Some (spawn (playNext r u) s)
  | PlayPrevious u => Some (spawn (playPrevious r u) s)
  | SeekTo time => Some (run (seekTo (Finite time);; mret tt) s)
  | SetVolume v => Some (run (setVolume v;; volume_effect) s)
  | ToggleMute => Some (run (toggleMute;; volume_effect) s)
  | ToggleShuffle => Some (run (toggleShuffle r) s)
  | ToggleRepeat => Some (run (toggleRepeat r) s)
  | AddToQueue songs => Some (run (addToQueue songs) s)
  | ClearQueue => Some (run clearQueue s)
  | SetIsPlayerMinimized b => Some (run (setIsPlayerMinimized b) s)
  | Settle k o =>
      p ← pending s !! k;
      '(p', w) ← settle p o (world s);
      Some (mkSystem w (delete k (pending s) ++ option_list p')%list)
  | Tick handle u =>
      cb ← timers (world s) !! handle;
      Some (spawn (tick cb u) s)
  | LoadedMetadata d =>
      a ← audioRef (world s);
      Some (run (with_audio (λ a, Audio.mk (Audio.src a) (Audio.currentTime a) (Audio.paused a)
                                   (Audio.crossOrigin a) (Some d) (Audio.volume a) (Audio.onerror a));;
                 setDuration d) s)
  | MediaProgress t =>
      a ← audioRef (world s);
      Some (run (media_set_currentTime t) s)
  | MediaEnded u =>
      (* the listener of line 95 is the handleSongEnd of the first render *)
      a ← audioRef (world s);
      Some (spawn (handleSongEnd initial_state u) s)
  | MediaError =>
      (* the listener from mount and onerror, then the listeners of the loads
         that are awaited *)
      a ← audioRef (world s);
      Some (mkSystem (exec (media_error_event a;; reject_loads (pending s)) (world s))
                     (other_than_loads (pending s)))
  end.

(** The systems the provider can get into, from the first render on. *)
Inductive reachable : System → Prop :=
| reachable_init : reachable (mkSystem initial_world [])
| reachable_step l s s' : reachable s → step l s = Some s' → reachable s'.

End Transitions.

(** A run of the system along a list of labels. *)
Fixpoint runs (BACKEND_URL : string) (ls : list Label) (s : System) : option System :=
  match ls with
  | [] => Some s
  | l :: ls' => s' ← step BACKEND_URL l s; runs BACKEND_URL ls' s'
  end.

(** ** Notions used in the statements *)

(** [c] keeps [P]: from a world with [P] it ends in a world with [P]. *)
Definition preserves {A} (P : World → Prop) (c : M A) : Prop :=
  ∀ w, P w → P (snd (c w)).

(** Every active interval is the one whose handle intervalRef holds. *)
Definition tracked_timers (w : World) : Prop :=
  ∀ i cb, timers w !! i = Some cb → intervalRef w = Some i.

(** The part of the published state that names what is playing. *)
Definition now_playing (w : World) : option Song * list Song * Z :=
  (currentSong (ps w), queue (ps w), currentIndex (ps w)).

(** [c] writes neither the current track, nor the queue, nor the index. *)
Definition keeps_now_playing {A} (c : M A) : Prop :=
  ∀ v, preserves (λ w, now_playing w = v) c.

(** With a current track, currentIndex is an index into queue. *)
Definition valid_index (s : PlaybackState) : bool :=
  match currentSong s with
  | Some _ => (0 <=? currentIndex s)%Z && (currentIndex s <? Z.of_nat (length (queue s)))%Z
  | None => true
  end.

(** The arguments of a playSong call name a position of the queue it sets. *)
Definition play_args_ok (song : option Song) (songQueue : list Song) (index : Z) : bool :=
  match song with
  | Some _ =>
      (0 <=? index)%Z
      && (index <? Z.of_nat (if (0 <? length songQueue)%nat then length songQueue else 1))%Z
  | None => true
  end.

Definition valid_world (w : World) : Prop := valid_index (ps w) = true.

(** The calls that are expected to keep the index valid: every label but
    clearQueue, playSong under [play_args_ok]. *)
Definition call_ok (l : Label) : bool :=
  match l with
  | PlaySong song songQueue index => play_args_ok song songQueue index
  | ClearQueue => false
  | _ => true
  end.

(** The search gave nothing to play: it failed, found no entry, or found an
    entry without a preview. *)
Definition no_candidate (o : SearchOutcome) : bool :=
  match o with
  | SearchError => true
  | SearchResults [] => true
  | SearchResults (u :: _) => negb (truthy u)
  end.

Definition contains (sub s : string) : Prop :=
  ∃ pre post, s = pre ++ sub ++ post.

Definition is_http (e : Event) : bool :=
  match e with
  | HttpGet _ => true
  | _ => false
  end.

Definition is_media_call (e : Event) : bool :=
  match e with
  | MediaPause | MediaLoad | MediaPlay => true
  | _ => false
  end.

(** Only promises settle along these labels. *)
Definition is_settle (l : Label) : bool :=
  match l with
  | Settle _ _ => true
  | _ => false
  end.

(** Two tracks for the concrete runs: the first has no preview of its own. *)
Definition track_a : Song :=
  mkSong "a1" "Alpha" "Ann" 30000 [] None.
Definition track_b : Song :=
  mkSong "b1" "Beta" "Bob" 20000 [] (Some "https://p.example/b.mp3").

Definition backend : string := "http://localhost:8001".

Definition initial_system : System := mkSystem initial_world [].

(** Mount, then track_b is played: it loads and starts. *)
Definition start_b : list Label :=
  [Mount; PlaySong (Some track_b) [] 0;
   Settle 0 (LoadSettled true); Settle 0 (PlaySettled Resolved)].

Definition playing_b : System :=
  default initial_system (runs backend start_b initial_system).

(** track_a is played, then track_b while the search for track_a is still
    out; track_b loads and starts. *)
Definition overlap_a_b : list Label :=
  [Mount; PlaySong (Some track_a) [] 0; PlaySong (Some track_b) [] 0;
   Settle 1 (LoadSettled true); Settle 1 (PlaySettled Resolved)].

Definition playing_b_searching_a : System :=
  default initial_system (runs backend overlap_a_b initial_system).

(** The same overlap step by step, to the point where the late search for
    track_a has come back empty as well. *)
Definition mounted : System :=
  default initial_system (runs backend [Mount] initial_system).
Definition after_play_a : System :=
  default initial_system (step backend (PlaySong (Some track_a) [] 0) mounted).
Definition after_play_b : System :=
  default initial_system (step backend (PlaySong (Some track_b) [] 0) after_play_a).
Definition settle_b_then_a : list Label :=
  [Settle 1 (LoadSettled true); Settle 1 (PlaySettled Resolved);
   Settle 0 (SearchSettled (SearchResults []))].
Definition after_a_settles : System :=
  default initial_system (runs backend settle_b_then_a after_play_b).

(** A render with three queued tracks, the last one current. *)
Definition three_tracks : PlaybackState :=
  mkPlaybackState (Some track_b) true 0 20 (7 # 10) false false false
    [track_a; track_b; track_a] 2 false.

(** ** Further notions used in the statements *)

(** The volume the volume effect (lines 130-134) gives the element. *)
Definition effective_volume (s : PlaybackState) : Q :=
  if isMuted s then 0%Q else volume s.

(** The element has that volume whenever it is one the setter takes. *)
Definition volume_applied (w : World) : Prop :=
  ∀ a, audioRef w = Some a → in_unit_range (effective_volume (ps w)) = true →
       Audio.volume a = effective_volume (ps w).

(** The state cells playSong does not write. *)
Definition beside_playback (w : World) : Q * Q * bool * bool * bool * bool :=
  (currentTime (ps w), volume (ps w), isMuted (ps w), isShuffled (ps w), isRepeat (ps w),
   isPlayerMinimized (ps w)).

Definition has_track (w : World) : Prop := currentSong (ps w) ≠ None.

Definition not_playing (w : World) : Prop := isPlaying (ps w) = false.

(** Without a current track nothing plays and no promise is out. *)
Definition idle_without_track (s : System) : Prop :=
  currentSong (ps (world s)) = None → isPlaying (ps (world s)) = false ∧ pending s = [].

(** An operation that starts from an idle world either sets a current track
    or leaves the world idle and awaits nothing. *)
Definition sets_track_or_idles (c : M (option Pending)) : Prop :=
  ∀ w, not_playing w →
       has_track (exec c w) ∨ (not_playing (exec c w) ∧ result c w = None).

(** ** formatTime (lines 639-644) *)

(** Truncation of a number toward zero, and the remainder operator on
    numbers, whose sign follows the dividend. *)
Definition Qtrunc (q : Q) : Z := Z.quot (Qnum q) (Zpos (Qden q)).

Definition number_rem (a b : Q) : Q := (a - b * inject_Z (Qtrunc (a / b)))%Q.

(** The decimal digits of an integer, with a minus sign where it is
    negative. *)
Definition decimal (z : Z) : string := NilZero.string_of_int (Z.to_int z).

(** The numbers of size below 2^53.  There the doubles of formatTime agree
    with the rationals: the remainder is exact, the quotient by 60 never
    rounds up or down to an integer it does not reach, and an integer prints
    all its digits. *)
Definition safe_size (q : Q) : bool :=
  negb (Qle_bool (inject_Z (2 ^ 53)) q) && negb (Qle_bool q (inject_Z (- 2 ^ 53))).

(** Number.prototype.toString on an integer of that size.  A larger number
    prints the shortest digits that read back as the same double, and from
    1e21 on an exponent; that is outside this model (None). *)
Definition integer_toString (z : Z) : option string :=
  if safe_size (inject_Z z) then Some (decimal z) else None.

Fixpoint repeat_string (n : nat) (pad : string) : string :=
  match n with
  | O => EmptyString
  | S n' => pad ++ repeat_string n' pad
  end.

(** padStart with a pad of one character. *)
Definition padStart (targetLength : nat) (pad : string) (s : string) : string :=
  repeat_string (targetLength - String.length s) pad ++ s.

(** formatTime; the argument is a finite number, or None for NaN or a
    missing value.  The model covers seconds of size below 2^53 and gives
    None on the others, where the doubles of the source and the rationals
    part ways. *)
Definition formatTime (seconds : option Q) : option string :=
  match seconds with
  | None => Some "0:00"
  | Some s =>
      if Qeq_bool s 0 then Some "0:00"
      else if safe_size s then
        let mins := Qfloor (s / 60) in
        let secs := Qfloor (number_rem s 60) in
        mins_string ← integer_toString mins;
        secs_string ← integer_toString secs;
        Some (mins_string ++ ":" ++ padStart 2 "0" secs_string)
      else None
  end.

(** The two decimal digits of a number below 100. *)
Definition two_digits (n : Z) : string :=
  decimal (n / 10) ++ decimal (n mod 10).

(** ** SongCard.handlePlaySong (lines 1140-1149) *)

(** A playlist as the card receives it; songs is None where the field is
    missing. *)
Record Playlist := mkPlaylist {
  playlist_name : string;
  songs : option (list Song)
}.

(** Array.prototype.findIndex: the first position whose entry satisfies the
    predicate, -1 when there is none. *)
Fixpoint findIndex_from (P : Song → bool) (l : list Song) (i : Z) : Z :=
  match l with
  | [] => -1
  | x :: rest => if P x then i else findIndex_from P rest (i + 1)
  end.

Definition findIndex (P : Song → bool) (l : list Song) : Z := findIndex_from P l 0.

Definition handlePlaySong (song : Song) (playlist : option Playlist) : M (option Pending) :=
  match playlist with
  | Some pl =>
      match songs pl with
      | Some playlist_songs =>
          let songIndex :=
            findIndex (λ s, String.eqb (spotify_id s) (spotify_id song)) playlist_songs in
          playSong (Some song) playlist_songs songIndex
      | None => playSong (Some song) [] 0
      end
  | None => playSong (Some song) [] 0
  end.

(** ** SettingsPage: the favourite genres (lines 2698-2713) *)

Module Profile.
Record t := mk {
  name : string;
  email : string;
  bio : string;
  favorite_genres : list string;
  avatar_color : string
}.
End Profile.

(** The two state cells of SettingsPage the genre handlers use. *)
Record SettingsState := mkSettingsState {
  profileData : Profile.t;
  newGenre : string
}.

Definition set_favorite_genres (f : list string → list string) (p : Profile.t) : Profile.t :=
  Profile.mk (Profile.name p) (Profile.email p) (Profile.bio p)
             (f (Profile.favorite_genres p)) (Profile.avatar_color p).

(** Array.prototype.includes on strings. *)
Definition includes (l : list string) (x : string) : bool :=
  existsb (String.eqb x) l.

Section Genres.

(** String.prototype.trim and String.prototype.toLowerCase. *)
Context (trim toLowerCase : string → string).

(** handleAddGenre of the render [r], applied to the state [st] the updater
    receives. *)
Definition handleAddGenre (r st : SettingsState) : SettingsState :=
  if truthy (Some (trim (newGenre r)))
     && negb (includes (Profile.favorite_genres (profileData r))
                       (toLowerCase (trim (newGenre r))))
  then
    mkSettingsState
      (set_favorite_genres (λ prev, (prev ++ [toLowerCase (trim (newGenre r))])%list)
                           (profileData st))
      EmptyString
  else st.

Definition handleRemoveGenre (genre : string) (st : SettingsState) : SettingsState :=
  mkSettingsState
    (set_favorite_genres (filter (λ g, g ≠ genre)) (profileData st))
    (newGenre st).

End Genres.

Definition genres_of (st : SettingsState) : list string :=
  Profile.favorite_genres (profileData st).

(** ** audioBufferToWav (lines 245-284) *)

(** An AudioBuffer: its length in sample frames, its channels, its sample
    rate, and getChannelData(channel)[i] as a function.  Samples are finite
    numbers. *)
Module AudioBuffer.
Record t := mk {
  length : nat;
  numberOfChannels : nat;
  sampleRate : Q;
  getChannelData : nat → nat → Q
}.
End AudioBuffer.

(** A DataView over an ArrayBuffer: its bytes, each in 0..255. *)
Definition DataView : Type := list Z.

(** The [n] low bytes of an integer, lowest first (littleEndian = true);
    on a negative integer these are the bytes of its two's complement. *)
Fixpoint le_bytes (n : nat) (v : Z) : list Z :=
  match n with
  | O => []
  | S n' => v mod 256 :: le_bytes n' (v / 256)
  end.

(** A write of bytes at a byte offset; outside the buffer the DataView
    setters throw a RangeError (None). *)
Definition write_bytes (offset : nat) (bs : list Z) (view : DataView) : option DataView :=
  if (offset + length bs <=? length view)%nat
  then Some (take offset view ++ bs ++ drop (offset + length bs) view)%list
  else None.

(** The setters take the integer part of their argument. *)
Definition setUint8 (offset : nat) (value : Z) : DataView → option DataView :=
  write_bytes offset (le_bytes 1 value).
Definition setUint16 (offset : nat) (value : Z) : DataView → option DataView :=
  write_bytes offset (le_bytes 2 value).
Definition setInt16 (offset : nat) (value : Z) : DataView → option DataView :=
  write_bytes offset (le_bytes 2 value).
Definition setUint32 (offset : nat) (value : Z) : DataView → option DataView :=
  write_bytes offset (le_bytes 4 value).

Definition charCode (c : ascii) : Z := Z.of_N (N_of_ascii c).

(** writeString of lines 253-257. *)
Fixpoint writeString (offset : nat) (s : string) (view : DataView) : option DataView :=
  match s with
  | EmptyString => Some view
  | String c rest =>
      view ← setUint8 offset (charCode c) view;
      writeString (S offset) rest view
  end.

(** A counted loop whose body may throw. *)
Fixpoint for_each {S : Type} (l : list nat) (body : nat → S → option S) (s : S) : option S :=
  match l with
  | [] => Some s
  | i :: rest => s ← body i s; for_each rest body s
  end.

(** Math.min and Math.max on two numbers. *)
Definition number_min (a b : Q) : Q := if Qle_bool a b then a else b.
Definition number_max (a b : Q) : Q := if Qle_bool a b then b else a.

(** The 16-bit value written for a sample: the sample is clamped to
    [-1, 1], scaled by 0x7FFF and truncated by setInt16. *)
Definition pcm16 (x : Q) : Z :=
  Qtrunc (number_max (-1) (number_min 1 x) * 32767).

Definition audioBufferToWav (buffer : AudioBuffer.t) : option DataView :=
  let length := AudioBuffer.length buffer in
  let numberOfChannels := AudioBuffer.numberOfChannels buffer in
  let sampleRate := AudioBuffer.sampleRate buffer in
  let view : DataView := replicate (44 + length * numberOfChannels * 2) 0 in
  view ← writeString 0 "RIFF" view;
  view ← setUint32 4 (Z.of_nat (36 + length * numberOfChannels * 2)) view;
  view ← writeString 8 "WAVE" view;
  view ← writeString 12 "fmt " view;
  view ← setUint32 16 16 view;
  view ← setUint16 20 1 view;
  view ← setUint16 22 (Z.of_nat numberOfChannels) view;
  view ← setUint32 24 (Qtrunc sampleRate) view;
  view ← setUint32 28 (Qtrunc (sampleRate * inject_Z (Z.of_nat numberOfChannels) * 2)) view;
  view ← setUint16 32 (Z.of_nat (numberOfChannels * 2)) view;
  view ← setUint16 34 16 view;
  view ← writeString 36 "data" view;
  view ← setUint32 40 (Z.of_nat (length * numberOfChannels * 2)) view;
  '(_, view) ←
    for_each (seq 0 length) (λ i,
      for_each (seq 0 numberOfChannels) (λ channel '(offset, view),
        view ← setInt16 offset (pcm16 (AudioBuffer.getChannelData buffer channel i)) view;
        Some ((offset + 2)%nat, view)))
      (44%nat, view);
  Some view.

(** Reading back: an unsigned and a signed little-endian integer. *)
Fixpoint uint_le (bs : list Z) : Z :=
  match bs with
  | [] => 0
  | b :: rest => b + 256 * uint_le rest
  end.

Definition getUint (offset n : nat) (view : DataView) : Z :=
  uint_le (take n (drop offset view)).

Definition getInt16 (offset : nat) (view : DataView) : Z :=
  let u := getUint offset 2 view in
  if (u <? 32768)%Z then u else u - 65536.

Definition string_codes (s : string) : list Z := map charCode (list_ascii_of_string s).

(** The bytes of the file: the 44 bytes of the header, then the frames. *)
Definition wav_header (buffer : AudioBuffer.t) : list Z :=
  let length := AudioBuffer.length buffer in
  let numberOfChannels := AudioBuffer.numberOfChannels buffer in
  let sampleRate := AudioBuffer.sampleRate buffer in
  (string_codes "RIFF"
   ++ le_bytes 4 (Z.of_nat (36 + length * numberOfChannels * 2))
   ++ string_codes "WAVE"
   ++ string_codes "fmt "
   ++ le_bytes 4 16
   ++ le_bytes 2 1
   ++ le_bytes 2 (Z.of_nat numberOfChannels)
   ++ le_bytes 4 (Qtrunc sampleRate)
   ++ le_bytes 4 (Qtrunc (sampleRate * inject_Z (Z.of_nat numberOfChannels) * 2))
   ++ le_bytes 2 (Z.of_nat (numberOfChannels * 2))
   ++ le_bytes 2 16
   ++ string_codes "data"
   ++ le_bytes 4 (Z.of_nat (length * numberOfChannels * 2)))%list.

Definition frame_bytes (buffer : AudioBuffer.t) (i : nat) : list Z :=
  flat_map (λ channel, le_bytes 2 (pcm16 (AudioBuffer.getChannelData buffer channel i)))
           (seq 0 (AudioBuffer.numberOfChannels buffer)).

Definition wav_samples (buffer : AudioBuffer.t) : list Z :=
  flat_map (frame_bytes buffer) (seq 0 (AudioBuffer.length buffer)).

Definition wav_bytes (buffer : AudioBuffer.t) : list Z :=
  (wav_header buffer ++ wav_samples buffer)%list.

(** ** Further concrete inputs *)

(** The media element after mount and while track_b plays; track_b paused,
    and played again. *)
Definition element_mounted : Audio.t := default new_Audio (audioRef (world mounted)).
Definition element_b : Audio.t := default new_Audio (audioRef (world playing_b)).
Definition paused_b : System :=
  default initial_system (step backend PauseSong playing_b).
Definition replay_b : System :=
  default initial_system (step backend (PlaySong (Some track_b) [] 0) playing_b).

(** track_a is played while track_b plays, and its search comes back empty. *)
Definition after_empty_search_for_a : System :=
  default initial_system
    (runs backend
       [PlaySong (Some track_a) [] 0; Settle 0 (SearchSettled (SearchResults []))] playing_b).

(** track_b is awaited to load. *)
Definition loading_b : System :=
  default initial_system (step backend (PlaySong (Some track_b) [] 0) mounted).

(** A render with repeat on. *)
Definition repeating_b : PlaybackState :=
  mkPlaybackState (Some track_b) true 0 20 (7 # 10) false false true
    [track_a; track_b] 1 false.

Definition track_c : Song :=
  mkSong "c1" "Gamma" "Cy" 25000 [] None.
Definition playlist_ab : Playlist :=
  mkPlaylist "Mix" (Some [track_a; track_b]).

Definition two_genres : SettingsState :=
  mkSettingsState
    (Profile.mk "Music Lover" "user@soundscout.com" EmptyString ["pop"; "rock"] "emerald")
    "jazz".

(** Two frames of two channels. *)
Definition two_frames : AudioBuffer.t :=
  AudioBuffer.mk 2 2 44100 (λ channel i, if (channel =? 0)%nat then (1 # 2)%Q else (-3)%Q).

(** ** Preservation lemmas *)

(** *** The monad and the interval bookkeeping *)

Section Frames.
Context {P : World → Prop}.

Lemma preserves_ret {A} (x : A) : preserves P (mret x).
Proof. intros w H. exact H. Qed.

Lemma preserves_bind {A B} (c : M A) (f : A → M B) :
  preserves P c → (∀ x, preserves P (f x)) → preserves P (c ≫= f).
Proof.
  intros Hc Hf w H. unfold mbind, M_bind.
  specialize (Hc w H). destruct (c w) as [x w1]. apply Hf, Hc.
Qed.

Lemma preserves_gets {A} (f : World → A) : preserves P (gets f).
Proof. intros w H. exact H. Qed.

Lemma preserves_reject_loads l :
  (∀ song, preserves P (play_failed song None)) → preserves P (reject_loads l).
Proof.
  intros Hf. induction l as [|p l IH]; [apply preserves_ret|].
  destruct p; cbn [reject_loads]; try exact IH.
  apply preserves_bind; [apply Hf | intros _; exact IH].
Qed.
End Frames.

Lemma tracked_with_ps f : preserves tracked_timers (with_ps f).
Proof. intros w H. exact H. Qed.
Lemma tracked_emit e : preserves tracked_timers (emit e).
Proof. intros w H. exact H. Qed.
Lemma tracked_with_audio f : preserves tracked_timers (with_audio f).
Proof. intros w H. exact H. Qed.

Lemma tracked_clear : preserves tracked_timers clear_current_interval.
Proof.
  intros w H. unfold clear_current_interval, gets, mbind, M_bind.
  destruct (intervalRef w) as [h|] eqn:E; simpl; [|exact H].
  intros i cb Hi. simpl in Hi.
  apply lookup_delete_Some in Hi as [Hne Hi]. apply H in Hi. congruence.
Qed.

Lemma start_progress_tracking_timers cb w :
  tracked_timers w →
  timers (exec (start_progress_tracking cb) w) = {[ nextTimer w := cb ]}
  ∧ intervalRef (exec (start_progress_tracking cb) w) = Some (nextTimer w).
Proof.
  intros H. unfold exec, start_progress_tracking, clear_current_interval, gets, mbind, M_bind.
  destruct (intervalRef w) as [h|] eqn:E; simpl; split; try reflexivity.
  - apply map_eq. intros i. destruct (decide (i = nextTimer w)) as [->|Hne].
    + by rewrite lookup_insert_eq, lookup_singleton_eq.
    + rewrite lookup_insert_ne, lookup_singleton_ne by done.
      destruct (delete h (timers w) !! i) as [cb'|] eqn:Hi; [|done].
      apply lookup_delete_Some in Hi as [Hih Hi]. apply H in Hi. congruence.
  - apply map_eq. intros i. destruct (decide (i = nextTimer w)) as [->|Hne].
    + by rewrite lookup_insert_eq, lookup_singleton_eq.
    + rewrite lookup_insert_ne, lookup_singleton_ne by done.
      destruct (timers w !! i) as [cb'|] eqn:Hi; [|done].
      apply H in Hi. congruence.
Qed.

Lemma tracked_start cb : preserves tracked_timers (start_progress_tracking cb).
Proof.
  intros w H. destruct (start_progress_tracking_timers cb w H) as [Ht Hr].
  unfold exec in *. intros i c Hi. rewrite Ht in Hi. rewrite Hr.
  apply lookup_singleton_Some in Hi as [-> _]. reflexivity.
Qed.

Ltac frame_step :=
  first
    [ apply preserves_ret
    | apply preserves_gets
    | apply tracked_start
    | apply tracked_clear
    | apply tracked_with_ps
    | apply tracked_emit
    | apply tracked_with_audio
    | apply preserves_bind; [|intros ?]
    | match goal with
      | |- preserves _ (match Finite _ with _ => _ end) => cbv beta iota
      | |- preserves _ (match ?x with _ => _ end) => destruct x
      | |- preserves _ (let _ := _ in _) => cbv zeta
      end ].
Ltac frame := repeat frame_step.

Lemma tracked_playSong song q i : preserves tracked_timers (playSong song q i).
Proof. unfold playSong, bind_and_load. frame. Qed.

Lemma tracked_mount : preserves tracked_timers mount.
Proof. intros w H. exact H. Qed.

(** Case analysis on a step that succeeded. *)
Ltac step_cases E :=
  cbv beta iota zeta delta [step] in E;
  repeat (apply bind_Some in E as (? & ? & E));
  try (match type of E with (let '(_, _) := ?x in _) = _ => destruct x end);
  injection E as <-.

Section TrackedOperations.
Context (BACKEND_URL : string).

Lemma tracked_playSong_searched song o :
  preserves tracked_timers (playSong_searched BACKEND_URL song o).
Proof. unfold playSong_searched, bind_and_load. frame. Qed.

Lemma tracked_media_error_event a : preserves tracked_timers (media_error_event a).
Proof. unfold media_error_event, handleAudioError, onerror_handler. frame. Qed.

Lemma tracked_play_failed song m : preserves tracked_timers (play_failed song m).
Proof. unfold play_failed. frame. Qed.

Lemma tracked_playSong_loaded a song url c :
  preserves tracked_timers (playSong_loaded a song url c).
Proof.
  unfold playSong_loaded. frame;
    auto using tracked_media_error_event, tracked_play_failed.
Qed.

Lemma tracked_playSong_started a song : preserves tracked_timers (playSong_started a song).
Proof. unfold playSong_started. frame. Qed.

Lemma tracked_playSong_played a song url o :
  preserves tracked_timers (playSong_played a song url o).
Proof. unfold playSong_played. frame; auto using tracked_playSong_started. Qed.

Lemma tracked_playSong_retried a song o :
  preserves tracked_timers (playSong_retried a song o).
Proof. unfold playSong_retried. frame; auto using tracked_playSong_started, tracked_play_failed. Qed.

Lemma tracked_pauseSong : preserves tracked_timers pauseSong.
Proof. unfold pauseSong. frame. Qed.

Lemma tracked_simulate_resume dur h : preserves tracked_timers (simulate_resume dur h).
Proof. unfold simulate_resume. frame. Qed.

Lemma tracked_resumeSong r h : preserves tracked_timers (resumeSong r h).
Proof. unfold resumeSong. frame; auto using tracked_simulate_resume. Qed.

Lemma tracked_resumeSong_played dur h o : preserves tracked_timers (resumeSong_played dur h o).
Proof. unfold resumeSong_played. frame; auto using tracked_simulate_resume. Qed.

Lemma tracked_togglePlayPause r h : preserves tracked_timers (togglePlayPause r h).
Proof. unfold togglePlayPause. frame; auto using tracked_pauseSong, tracked_resumeSong. Qed.

Lemma tracked_playNext r u : preserves tracked_timers (playNext r u).
Proof. unfold playNext. frame; auto using tracked_playSong. Qed.

Lemma tracked_playPrevious r u : preserves tracked_timers (playPrevious r u).
Proof. unfold playPrevious. frame; auto using tracked_playSong. Qed.

Lemma tracked_handleSongEnd h u : preserves tracked_timers (handleSongEnd h u).
Proof. unfold handleSongEnd. frame; auto using tracked_playSong, tracked_playNext. Qed.

Lemma tracked_tick cb u : preserves tracked_timers (tick cb u).
Proof. unfold tick. frame; auto using tracked_handleSongEnd. Qed.

Lemma tracked_continuation ref p o c :
  continuation BACKEND_URL ref p o = Some c → preserves tracked_timers c.
Proof.
  intros E. destruct p, o, ref; simplify_eq/=; frame;
    auto using tracked_playSong_searched, tracked_playSong_loaded, tracked_playSong_played,
      tracked_playSong_retried, tracked_resumeSong_played.
Qed.

Lemma tracked_settle p o w p' w' :
  settle BACKEND_URL p o w = Some (p', w') → tracked_timers w → tracked_timers w'.
Proof.
  unfold settle. intros E H.
  destruct (continuation BACKEND_URL (audioRef w) p o) as [c|] eqn:Ec; simplify_eq/=.
  apply (tracked_continuation _ _ _ _ Ec) in H. by rewrite E in H.
Qed.

Lemma preserves_run (P : World → Prop) c s :
  preserves P c → P (world s) → P (world (run c s)).
Proof. intros Hc H. apply Hc, H. Qed.

Lemma preserves_spawn (P : World → Prop) c s :
  preserves P c → P (world s) → P (world (spawn c s)).
Proof.
  intros Hc H. unfold spawn. specialize (Hc _ H).
  destruct (c (world s)) as [p w]. exact Hc.
Qed.

Lemma preserves_exec (P : World → Prop) {A} (c : M A) s l :
  preserves P c → P (world s) → P (world (mkSystem (exec c (world s)) l)).
Proof. intros Hc H. apply Hc, H. Qed.

Lemma tracked_reject_loads l : preserves tracked_timers (reject_loads l).
Proof. apply preserves_reject_loads. intros song. apply tracked_play_failed. Qed.

Lemma tracked_step l s s' :
  step BACKEND_URL l s = Some s' → tracked_timers (world s) → tracked_timers (world s').
Proof.
  intros E H. destruct l; step_cases E;
    try (first [apply preserves_run | apply preserves_spawn | apply preserves_exec];
         [|assumption]).
  all: try by (unfold volume_effect, unmount, apply_volume, media_set_volume, seekTo,
                 toggleMute, toggleShuffle, toggleRepeat, addToQueue, clearQueue; frame;
               auto using tracked_playSong, tracked_pauseSong, tracked_resumeSong,
                 tracked_togglePlayPause, tracked_playNext, tracked_playPrevious, tracked_tick,
                 tracked_handleSongEnd, tracked_media_error_event, tracked_mount,
                 tracked_reject_loads).
  eapply tracked_settle; eauto.
Qed.

Lemma reachable_tracked s : reachable BACKEND_URL s → tracked_timers (world s).
Proof.
  induction 1 as [|l s s' _ IH E].
  - intros i cb Hi. simpl in Hi. by rewrite lookup_empty in Hi.
  - eapply tracked_step; eauto.
Qed.
End TrackedOperations.

Lemma tracked_size w : tracked_timers w → (size (timers w) ≤ 1)%nat.
Proof.
  intros H. destruct (intervalRef w) as [h|] eqn:E.
  - destruct (timers w !! h) as [cb|] eqn:Eh.
    + replace (timers w) with ({[ h := cb ]} : gmap positive Timer).
      * rewrite map_size_singleton; lia.
      * apply map_eq. intros i. destruct (decide (i = h)) as [->|Hne].
        -- by rewrite lookup_singleton_eq.
        -- rewrite lookup_singleton_ne by done.
           destruct (timers w !! i) as [cb'|] eqn:Hi; [|done].
           apply H in Hi. congruence.
    + replace (timers w) with (∅ : gmap positive Timer); [rewrite map_size_empty; lia|].
      apply map_eq. intros i. rewrite lookup_empty.
      destruct (timers w !! i) as [cb'|] eqn:Hi; [|done].
      pose proof (H _ _ Hi). congruence.
  - replace (timers w) with (∅ : gmap positive Timer); [rewrite map_size_empty; lia|].
    apply map_eq. intros i. rewrite lookup_empty.
    destruct (timers w !! i) as [cb'|] eqn:Hi; [|done].
    pose proof (H _ _ Hi). congruence.
Qed.

Lemma clear_current_interval_timers w :
  tracked_timers w → timers (exec clear_current_interval w) = ∅.
Proof.
  intros H. unfold exec, clear_current_interval, gets, mbind, M_bind.
  apply map_eq. intros i. rewrite lookup_empty.
  destruct (intervalRef w) as [h|] eqn:E; simpl.
  - destruct (delete h (timers w) !! i) as [cb|] eqn:Hi; [|done].
    apply lookup_delete_Some in Hi as [Hne Hi]. apply H in Hi. congruence.
  - destruct (timers w !! i) as [cb|] eqn:Hi; [|done].
    apply H in Hi. congruence.
Qed.

Lemma exec_bind {A B} (c : M A) (f : A → M B) w :
  exec (c ≫= f) w = exec (f (result c w)) (exec c w).
Proof. unfold exec, result, mbind, M_bind. by destruct (c w). Qed.

Lemma pauseSong_timers w : tracked_timers w → timers (exec pauseSong w) = ∅.
Proof.
  intros H. unfold pauseSong, exec, gets, mbind, M_bind.
  destruct (audioRef w); simpl; by apply clear_current_interval_timers.
Qed.

Lemma playSong_started_timers a song w :
  tracked_timers w → timers (exec (playSong_started a song) w) = {[ nextTimer w := PollTransport ]}.
Proof.
  intros H. unfold playSong_started, exec, mbind, M_bind. simpl.
  match goal with |- context [start_progress_tracking ?cb ?w'] =>
    destruct (start_progress_tracking_timers cb w' H) as [Ht _];
    unfold exec in Ht; destruct (start_progress_tracking cb w') as [[] w2]
  end.
  exact Ht.
Qed.

Lemma resumeSong_played_timers dur h o w :
  tracked_timers w →
  timers (exec (resumeSong_played dur h o) w)
  = {[ nextTimer w := match o with Resolved => PollTransport | Rejected _ => SimulatedCursor dur h end ]}.
Proof.
  intros H. destruct o; unfold resumeSong_played, simulate_resume, exec, mbind, M_bind; simpl.
  all: match goal with |- context [start_progress_tracking ?cb ?w'] =>
    destruct (start_progress_tracking_timers cb w' H) as [Ht _];
    unfold exec in Ht; destruct (start_progress_tracking cb w') as [[] w2]
  end; exact Ht.
Qed.

Lemma simulate_resume_timers dur h w :
  tracked_timers w →
  timers (exec (simulate_resume dur h) w) = {[ nextTimer w := SimulatedCursor dur h ]}.
Proof. apply (resumeSong_played_timers dur h (Rejected None)). Qed.

(** *** Operations that leave the current track, the queue and the index alone *)

Lemma keeps_ret {A} (x : A) : keeps_now_playing (mret x).
Proof. intros v. apply preserves_ret. Qed.
Lemma keeps_gets {A} (f : World → A) : keeps_now_playing (gets f).
Proof. intros v. apply preserves_gets. Qed.
Lemma keeps_bind {A B} (c : M A) (f : A → M B) :
  keeps_now_playing c → (∀ x, keeps_now_playing (f x)) → keeps_now_playing (c ≫= f).
Proof. intros Hc Hf v. apply preserves_bind; [apply Hc | intros x; apply Hf]. Qed.
Lemma keeps_exec {A} (c : M A) w : keeps_now_playing c → now_playing (exec c w) = now_playing w.
Proof. intros H. exact (H (now_playing w) w eq_refl). Qed.

Lemma keeps_setIsPlaying b : keeps_now_playing (setIsPlaying b).
Proof. intros v w H. exact H. Qed.
Lemma keeps_setCurrentTime f : keeps_now_playing (setCurrentTime f).
Proof. intros v w H. exact H. Qed.
Lemma keeps_setDuration d : keeps_now_playing (setDuration d).
Proof. intros v w H. exact H. Qed.
Lemma keeps_emit e : keeps_now_playing (emit e).
Proof. intros v w H. exact H. Qed.
Lemma keeps_with_audio f : keeps_now_playing (with_audio f).
Proof. intros v w H. exact H. Qed.
Lemma keeps_clear : keeps_now_playing clear_current_interval.
Proof.
  intros v w H. unfold clear_current_interval, gets, mbind, M_bind.
  by destruct (intervalRef w).
Qed.
Lemma keeps_start cb : keeps_now_playing (start_progress_tracking cb).
Proof.
  intros v w H. unfold start_progress_tracking, clear_current_interval, gets, mbind, M_bind.
  by destruct (intervalRef w).
Qed.

Ltac keep_step :=
  first
    [ apply keeps_ret
    | apply keeps_gets
    | apply keeps_start
    | apply keeps_clear
    | apply keeps_setIsPlaying
    | apply keeps_setCurrentTime
    | apply keeps_setDuration
    | apply keeps_emit
    | apply keeps_with_audio
    | apply keeps_bind; [|intros ?]
    | match goal with
      | |- keeps_now_playing (match ?x with _ => _ end) => destruct x
      | |- keeps_now_playing (let _ := _ in _) => cbv zeta
      end ].
Ltac keep := repeat keep_step.

Section NowPlayingOps.
Context (BACKEND_URL : string).

Lemma keeps_bind_and_load song url : keeps_now_playing (bind_and_load song url).
Proof. unfold bind_and_load. keep. Qed.

Lemma keeps_playSong_searched song o : keeps_now_playing (playSong_searched BACKEND_URL song o).
Proof. unfold playSong_searched. keep; apply keeps_bind_and_load. Qed.

Lemma keeps_play_failed song m : keeps_now_playing (play_failed song m).
Proof. unfold play_failed. keep. Qed.

Lemma keeps_media_error_event a : keeps_now_playing (media_error_event a).
Proof. unfold media_error_event, handleAudioError, onerror_handler. keep. Qed.

Lemma keeps_playSong_loaded a song url c : keeps_now_playing (playSong_loaded a song url c).
Proof. unfold playSong_loaded. keep; auto using keeps_media_error_event, keeps_play_failed. Qed.

Lemma keeps_playSong_started a song : keeps_now_playing (playSong_started a song).
Proof. unfold playSong_started. keep. Qed.

Lemma keeps_playSong_played a song url o : keeps_now_playing (playSong_played a song url o).
Proof. unfold playSong_played. keep; auto using keeps_playSong_started. Qed.

Lemma keeps_playSong_retried a song o : keeps_now_playing (playSong_retried a song o).
Proof. unfold playSong_retried. keep; auto using keeps_playSong_started, keeps_play_failed. Qed.

Lemma keeps_simulate_resume dur h : keeps_now_playing (simulate_resume dur h).
Proof. unfold simulate_resume. keep. Qed.

Lemma keeps_resumeSong_played dur h o : keeps_now_playing (resumeSong_played dur h o).
Proof. unfold resumeSong_played. keep; auto using keeps_simulate_resume. Qed.

Lemma keeps_pauseSong : keeps_now_playing pauseSong.
Proof. unfold pauseSong. keep. Qed.

Lemma keeps_resumeSong r h : keeps_now_playing (resumeSong r h).
Proof. unfold resumeSong. keep; auto using keeps_simulate_resume. Qed.

Lemma keeps_continuation ref p o c :
  continuation BACKEND_URL ref p o = Some c → keeps_now_playing c.
Proof.
  intros E. destruct p, o, ref; simplify_eq/=; keep;
    auto using keeps_playSong_searched, keeps_playSong_loaded, keeps_playSong_played,
      keeps_playSong_retried, keeps_resumeSong_played.
Qed.

Lemma settle_now_playing p o w p' w' :
  settle BACKEND_URL p o w = Some (p', w') → now_playing w' = now_playing w.
Proof.
  unfold settle. intros E.
  destruct (continuation BACKEND_URL (audioRef w) p o) as [c|] eqn:Ec; simplify_eq/=.
  pose proof (keeps_exec c w (keeps_continuation _ _ _ _ Ec)) as H.
  unfold exec in H. by rewrite E in H.
Qed.
End NowPlayingOps.

Lemma playSong_now_playing song q i w :
  now_playing (exec (playSong (Some song) q i) w)
  = (Some song, if (0 <? length q)%nat then q else [song], i).
Proof.
  unfold playSong. do 4 (rewrite exec_bind; cbv beta).
  rewrite keeps_exec; [reflexivity|].
  keep.
Qed.

(** ** The claims *)

Lemma reachable_runs B ls : ∀ s s', reachable B s → runs B ls s = Some s' → reachable B s'.
Proof.
  induction ls as [|l ls IH]; intros s s' R E; simpl in E.
  - by simplify_eq.
  - apply bind_Some in E as (s1 & E1 & E). eapply IH; [|exact E].
    eapply reachable_step; eauto.
Qed.

(** C1.  In every system the provider can reach, at most one interval is
    active.  Each operation that installs a progress-tracking interval (the
    successful start of playSong, the resumed transport and the simulated
    resume of resumeSong) leaves exactly the new one in the table, the
    interval installed before being cleared first, and pauseSong leaves
    none. *)
Theorem single_polling_timer BACKEND_URL s :
  reachable BACKEND_URL s →
  (size (timers (world s)) ≤ 1)%nat
  ∧ (∀ a song, timers (exec (playSong_started a song) (world s))
               = {[ nextTimer (world s) := PollTransport ]})
  ∧ (∀ dur h, timers (exec (resumeSong_played dur h Resolved) (world s))
              = {[ nextTimer (world s) := PollTransport ]})
  ∧ (∀ dur h m, timers (exec (resumeSong_played dur h (Rejected m)) (world s))
                = {[ nextTimer (world s) := SimulatedCursor dur h ]})
  ∧ (∀ dur h, timers (exec (simulate_resume dur h) (world s))
              = {[ nextTimer (world s) := SimulatedCursor dur h ]})
  ∧ timers (exec pauseSong (world s)) = ∅.
Proof.
  intros R. apply reachable_tracked in R.
  repeat split; intros.
  - by apply tracked_size.
  - by apply playSong_started_timers.
  - by apply (resumeSong_played_timers dur h Resolved).
  - by apply (resumeSong_played_timers dur h (Rejected m)).
  - by apply simulate_resume_timers.
  - by apply pauseSong_timers.
Qed.

Lemma single_polling_timer_witness :
  (size (timers (world playing_b)) ≤ 1)%nat
  ∧ timers (exec pauseSong (world playing_b)) = ∅.
Proof.
  assert (reachable backend playing_b) as R.
  { apply (reachable_runs backend start_b initial_system); [apply reachable_init|].
    vm_compute. reflexivity. }
  destruct (single_polling_timer backend playing_b R) as (H1 & _ & _ & _ & _ & H6).
  split; assumption.
Defined.

(** C10.  playSong called without a song returns at once: the world (state
    cells, media element, intervals, trace) is the same, nothing is searched
    and nothing is awaited, so the system is unchanged by the call. *)
Theorem playSong_without_song BACKEND_URL songQueue index w s :
  playSong None songQueue index w = (None, w)
  ∧ step BACKEND_URL (PlaySong None songQueue index) s = Some s.
Proof.
  split; [reflexivity|]. destruct s as [w0 pend]. unfold step, spawn. simpl.
  by rewrite app_nil_r.
Qed.

(** C8, as amended.  seekTo publishes a finite time as currentTime in every
    world, whether a media element exists and whatever it has bound; where
    the element exists its position is set as well.  The interval table and
    intervalRef are not touched. *)
Theorem seekTo_publishes_time (time : Q) w :
  result (seekTo (Finite time)) w = Published
  ∧ currentTime (ps (exec (seekTo (Finite time)) w)) = time
  ∧ Audio.currentTime <$> audioRef (exec (seekTo (Finite time)) w)
    = (λ _, time) <$> audioRef w
  ∧ timers (exec (seekTo (Finite time)) w) = timers w
  ∧ intervalRef (exec (seekTo (Finite time)) w) = intervalRef w.
Proof. destruct w as [p [a|] i tm n tr]; repeat split; reflexivity. Qed.

(** C8 as stated fails: while track_b plays, seekTo on NaN or on Infinity
    throws at the position setter of the element, and the published time,
    like all of the world, is what it was. *)
Lemma seekTo_not_finite_is_not_published :
  seekTo NaN (world playing_b) = (Threw, world playing_b)
  ∧ seekTo Infinity (world playing_b) = (Threw, world playing_b)
  ∧ seekTo NegInfinity (world playing_b) = (Threw, world playing_b).
Proof. vm_compute. repeat split; reflexivity. Qed.

(** C5.  For a song whose preview_url is present and not empty, playSong
    sends no HTTP request; where a media element exists it binds that URL
    unchanged as the source and waits for it to load. *)
Theorem direct_preview_needs_no_search song u songQueue index w :
  preview_url song = Some u → u ≠ EmptyString →
  ∃ evs,
    trace (exec (playSong (Some song) songQueue index) w) = (evs ++ trace w)%list
    ∧ forallb (λ e, negb (is_http e)) evs = true
    ∧ match audioRef w with
      | Some _ =>
          result (playSong (Some song) songQueue index) w = Some (AwaitCanPlay song u)
          ∧ Audio.src <$> audioRef (exec (playSong (Some song) songQueue index) w) = Some u
      | None => result (playSong (Some song) songQueue index) w = None
      end.
Proof.
  intros Hu Hne.
  assert (truthy (Some u) = true) as Ht.
  { simpl. destruct (String.eqb_spec u EmptyString); [contradiction|reflexivity]. }
  unfold exec, result, playSong, bind_and_load, gets, mbind, M_bind. rewrite Hu, Ht. simpl.
  destruct (audioRef w) as [a|] eqn:Ea; simpl.
  - by exists [MediaLoad; MediaPause].
  - by exists [].
Qed.

Lemma direct_preview_needs_no_search_witness :
  result (playSong (Some track_b) [] 0) (exec mount initial_world)
  = Some (AwaitCanPlay track_b "https://p.example/b.mp3").
Proof.
  destruct (direct_preview_needs_no_search track_b "https://p.example/b.mp3" [] 0
              (exec mount initial_world) eq_refl ltac:(discriminate)) as (evs & _ & _ & H).
  exact (proj1 H).
Defined.

Lemma string_app_assoc (a b c : string) : (a ++ b) ++ c = a ++ b ++ c.
Proof.
  induction a as [|x a IH]; [reflexivity|].
  change (String x ((a ++ b) ++ c) = String x (a ++ b ++ c)). by f_equal.
Qed.

Lemma contains_quoted pre s post : contains s (pre ++ quoted s ++ post).
Proof.
  exists (pre ++ dquote), (dquote ++ post). unfold quoted.
  by rewrite !string_app_assoc.
Qed.

(** What both failure exits of the search do, for every song and world.  For
    a song without a preview_url, playSong goes to the search.  When the
    search fails, finds nothing, or finds an entry without a preview, the
    operation ends there: isPlaying is false, the one effect recorded is an
    error toast whose message contains the name of the song, and the media
    element is left as it was. *)
Lemma no_preview_found_stops BACKEND_URL song o songQueue index w0 w :
  truthy (preview_url song) = false → no_candidate o = true →
  result (playSong (Some song) songQueue index) w0 = Some (AwaitSearch song)
  ∧ audioRef (exec (playSong (Some song) songQueue index) w0) = audioRef w0
  ∧ result (playSong_searched BACKEND_URL song o) w = None
  ∧ isPlaying (ps (exec (playSong_searched BACKEND_URL song o) w)) = false
  ∧ audioRef (exec (playSong_searched BACKEND_URL song o) w) = audioRef w
  ∧ ∃ msg, trace (exec (playSong_searched BACKEND_URL song o) w) = Toast Error msg :: trace w
           ∧ contains (name song) msg.
Proof.
  intros Hp Ho. unfold exec, result, playSong, quoted. rewrite Hp.
  split; [reflexivity|]. split; [reflexivity|].
  destruct o as [[|u results]|]; simpl in Ho |- *.
  - repeat split; try reflexivity. eexists. split; [reflexivity|].
    apply (contains_quoted "No preview available for " (name song) ". Try opening in Spotify to listen.").
  - destruct u as [u|]; simpl in Ho |- *.
    + apply negb_true_iff in Ho. unfold playSong_searched, mbind, M_bind. simpl.
      rewrite Ho. simpl.
      repeat split; try reflexivity. eexists. split; [reflexivity|].
      apply (contains_quoted "No preview available for " (name song) ". Try opening in Spotify to listen.").
    + repeat split; try reflexivity. eexists. split; [reflexivity|].
      apply (contains_quoted "No preview available for " (name song) ". Try opening in Spotify to listen.").
  - repeat split; try reflexivity. eexists. split; [reflexivity|].
    apply (contains_quoted "Preview not available for " (name song) ".").
Qed.

Lemma no_preview_found_stops_witness :
  isPlaying (ps (exec (playSong_searched backend track_a (SearchResults [])) (world playing_b)))
  = false.
Proof.
  destruct (no_preview_found_stops backend track_a (SearchResults []) [] 0
              initial_world (world playing_b) eq_refl eq_refl) as (_ & _ & _ & H & _).
  exact H.
Defined.

(** C6.  The code at the failing input: while track_b plays, track_a, which
    has no preview_url, is played and its search comes back empty.  The
    attempt ends with track_a current, isPlaying false and an error toast
    that names track_a; but the exit is taken before the pause of line 403,
    so the element is still bound to the preview of track_b and is not
    paused, and the poll interval still runs. *)
Theorem no_preview_leaves_previous_track_playing :
  runs backend
    [PlaySong (Some track_a) [] 0; Settle 0 (SearchSettled (SearchResults []))] playing_b
  = Some after_empty_search_for_a
  ∧ pending after_empty_search_for_a = []
  ∧ currentSong (ps (world after_empty_search_for_a)) = Some track_a
  ∧ isPlaying (ps (world after_empty_search_for_a)) = false
  ∧ head (trace (world after_empty_search_for_a))
    = Some (Toast Error ("No preview available for " ++ quoted (name track_a)
                         ++ ". Try opening in Spotify to listen."))
  ∧ Audio.src <$> audioRef (world after_empty_search_for_a) = Some "https://p.example/b.mp3"
  ∧ Audio.paused <$> audioRef (world after_empty_search_for_a) = Some false
  ∧ map_to_list (timers (world after_empty_search_for_a))
    = map_to_list (timers (world playing_b))
  ∧ size (timers (world after_empty_search_for_a)) = 1%nat.
Proof. vm_compute. repeat split; reflexivity. Qed.

Lemma js_index_in_range (q : list Song) (i : Z) :
  0 ≤ i < Z.of_nat (length q) → ∃ song, js_index q i = Some song.
Proof.
  intros [H0 H1]. unfold js_index.
  destruct (Z.ltb_spec i 0); [lia|].
  destruct (lookup_lt_is_Some_2 q (Z.to_nat i)) as [song Hs]; [lia|].
  by exists song.
Qed.

Lemma js_index_Some (q : list Song) (i : Z) song :
  js_index q i = Some song → 0 ≤ i < Z.of_nat (length q).
Proof.
  unfold js_index. destruct (Z.ltb_spec i 0); [done|]. intros Hs.
  apply lookup_lt_Some in Hs. lia.
Qed.

(** C4.  With at least two queued songs, a current index inside the queue
    and shuffle off, playNext is the call of playSong on the entry at
    (index + 1) mod n and playPrevious the call on the entry at
    (index - 1 + n) mod n, each with the same queue and the new index, which
    is what the call then publishes. *)
Theorem sequential_next_previous_round_robin r u :
  2 ≤ Z.of_nat (length (queue r)) →
  0 ≤ currentIndex r < Z.of_nat (length (queue r)) →
  isShuffled r = false →
  let n := Z.of_nat (length (queue r)) in
  (∃ song, js_index (queue r) ((currentIndex r + 1) mod n) = Some song
           ∧ playNext r u = playSong (Some song) (queue r) ((currentIndex r + 1) mod n)
           ∧ ∀ w, now_playing (exec (playNext r u) w)
                  = (Some song, queue r, (currentIndex r + 1) mod n))
  ∧ (∃ song, js_index (queue r) ((currentIndex r - 1 + n) mod n) = Some song
             ∧ playPrevious r u = playSong (Some song) (queue r) ((currentIndex r - 1 + n) mod n)
             ∧ ∀ w, now_playing (exec (playPrevious r u) w)
                    = (Some song, queue r, (currentIndex r - 1 + n) mod n)).
Proof.
  intros Hn Hi Hs n.
  assert ((length (queue r) =? 0)%nat = false) as Hlen by (apply Nat.eqb_neq; lia).
  assert ((0 <? length (queue r))%nat = true) as Hpos by (apply Nat.ltb_lt; lia).
  split.
  - destruct (js_index_in_range (queue r) ((currentIndex r + 1) mod n)) as [song Hsong].
    { apply Z.mod_pos_bound. lia. }
    exists song. split; [exact Hsong|].
    assert (playNext r u = playSong (Some song) (queue r) ((currentIndex r + 1) mod n)) as E.
    { unfold playNext. rewrite Hlen, Hs. cbv zeta.
      rewrite Z.rem_mod_nonneg by lia. fold n. by rewrite Hsong. }
    split; [exact E|]. intros w. rewrite E, playSong_now_playing. by rewrite Hpos.
  - assert ((if (currentIndex r - 1 <? 0)%Z then n - 1 else currentIndex r - 1)
            = (currentIndex r - 1 + n) mod n) as Hprev.
    { destruct (Z.ltb_spec (currentIndex r - 1) 0).
      - replace (currentIndex r - 1 + n) with (n - 1) by lia. rewrite Z.mod_small; lia.
      - replace (currentIndex r - 1 + n) with (currentIndex r - 1 + 1 * n) by lia.
        rewrite Z_mod_plus_full. rewrite Z.mod_small; lia. }
    destruct (js_index_in_range (queue r) ((currentIndex r - 1 + n) mod n)) as [song Hsong].
    { apply Z.mod_pos_bound. lia. }
    exists song. split; [exact Hsong|].
    assert (playPrevious r u
            = playSong (Some song) (queue r) ((currentIndex r - 1 + n) mod n)) as E.
    { unfold playPrevious. rewrite Hlen, Hs. cbv zeta. fold n.
      rewrite Hprev. by rewrite Hsong. }
    split; [exact E|]. intros w. rewrite E, playSong_now_playing. by rewrite Hpos.
Qed.

Lemma sequential_next_previous_round_robin_witness :
  playNext three_tracks 0 = playSong (Some track_a) [track_a; track_b; track_a] 0
  ∧ playPrevious three_tracks 0 = playSong (Some track_b) [track_a; track_b; track_a] 1.
Proof.
  destruct (sequential_next_previous_round_robin three_tracks 0
              ltac:(simpl; lia) ltac:(simpl; lia) eq_refl)
    as [(s1 & Hs1 & E1 & _) (s2 & Hs2 & E2 & _)].
  vm_compute in Hs1, Hs2. simplify_eq. split; [exact E1 | exact E2].
Defined.

(** C3, as amended.  On an empty queue playNext and playPrevious do nothing.
    On a queue of one song they are not no-ops: with shuffle off playNext calls
    playSong on that song with index 0, and so does playPrevious when the
    current index is at most 1. *)
Theorem short_queue_next_previous r u :
  (length (queue r) ≤ 1)%nat →
  match queue r with
  | [] => ∀ w, playNext r u w = (None, w) ∧ playPrevious r u w = (None, w)
  | song :: _ =>
      isShuffled r = false →
      playNext r u = playSong (Some song) [song] 0
      ∧ (currentIndex r ≤ 1 → playPrevious r u = playSong (Some song) [song] 0)
  end.
Proof.
  intros Hlen. destruct (queue r) as [|song [|song' rest]] eqn:Eq; simpl in Hlen; [| |lia].
  - intros w. unfold playNext, playPrevious. by rewrite Eq.
  - intros Hs. unfold playNext, playPrevious. rewrite Eq, Hs. simpl length. cbv zeta.
    change (Z.of_nat 1) with 1. rewrite Z.rem_1_r. split; [reflexivity|].
    intros Hi. destruct (Z.ltb_spec (currentIndex r - 1) 0) as [Hlt|Hge].
    + reflexivity.
    + replace (currentIndex r - 1) with 0 by lia. reflexivity.
Qed.

Lemma short_queue_next_previous_witness :
  playNext initial_state 0 initial_world = (None, initial_world)
  ∧ playNext (ps (world playing_b)) 0 = playSong (Some track_b) [track_b] 0
  ∧ playPrevious (ps (world playing_b)) 0 = playSong (Some track_b) [track_b] 0.
Proof.
  pose proof (short_queue_next_previous initial_state 0 ltac:(vm_compute; lia)) as H0.
  pose proof (short_queue_next_previous (ps (world playing_b)) 0 ltac:(vm_compute; lia)) as H.
  change (queue (ps (world playing_b))) with [track_b] in H.
  destruct (H eq_refl) as [H1 H2].
  split; [exact (proj1 (H0 initial_world))|].
  split; [exact H1|]. apply H2. vm_compute. discriminate.
Defined.

(** C3 as stated fails on a queue of one song: while track_b plays from the
    queue [track_b], playNext and playPrevious reset isPlaying. *)
Lemma singleton_queue_next_is_not_a_noop :
  length (queue (ps (world playing_b))) = 1%nat
  ∧ isPlaying (ps (world playing_b)) = true
  ∧ isPlaying (ps (exec (playNext (ps (world playing_b)) 0) (world playing_b))) = false
  ∧ isPlaying (ps (exec (playPrevious (ps (world playing_b)) 0) (world playing_b))) = false.
Proof. vm_compute. repeat split. Qed.

(** C9, as amended.  When the promise of play() rejects, the controller
    clears crossOrigin, binds the same source again, loads it and calls
    play() once more; when that second promise rejects too, it gives up with
    an error toast and isPlaying false, touching the media element no
    further.  When the source fails while loading, there is no second
    attempt: the operation ends with isPlaying false and no further call on
    the media element. *)
Theorem retry_once_after_rejected_play a song audioUrl m1 m2 w :
  (result (playSong_played a song audioUrl (Rejected m1)) w = Some (AwaitRetry song audioUrl)
   ∧ Audio.crossOrigin <$> audioRef (exec (playSong_played a song audioUrl (Rejected m1)) w)
     = (λ _, None) <$> audioRef w
   ∧ Audio.src <$> audioRef (exec (playSong_played a song audioUrl (Rejected m1)) w)
     = (λ _, audioUrl) <$> audioRef w
   ∧ trace (exec (playSong_played a song audioUrl (Rejected m1)) w)
     = MediaPlay :: MediaLoad :: trace w)
  ∧ (isPlaying (ps (exec (playSong_retried a song (Rejected m2)) w)) = false
     ∧ audioRef (exec (playSong_retried a song (Rejected m2)) w) = audioRef w
     ∧ ∃ msg, trace (exec (playSong_retried a song (Rejected m2)) w) = Toast Error msg :: trace w)
  ∧ (result (playSong_loaded a song audioUrl false) w = None
     ∧ isPlaying (ps (exec (playSong_loaded a song audioUrl false) w)) = false
     ∧ audioRef (exec (playSong_loaded a song audioUrl false) w) = audioRef w
     ∧ filter is_media_call (trace (exec (playSong_loaded a song audioUrl false) w))
       = filter is_media_call (trace w)).
Proof.
  split; [|split].
  - destruct w as [p [a0|] i tm n tr]; repeat split; reflexivity.
  - repeat split; try reflexivity. by eexists.
  - unfold playSong_loaded, media_error_event. destruct (Audio.onerror a); repeat split; reflexivity.
Qed.

(** C9 as stated fails: when track_b fails to load, nothing stays in flight,
    crossOrigin is still anonymous, and the only calls on the media element are
    the pause and the load of the first attempt. *)
Lemma load_error_is_not_retried :
  (s ← runs backend [Mount; PlaySong (Some track_b) [] 0; Settle 0 (LoadSettled false)]
         initial_system;
   Some (pending s, isPlaying (ps (world s)), Audio.crossOrigin <$> audioRef (world s),
         filter is_media_call (trace (world s))))
  = Some ([], false, Some (Some "anonymous"), [MediaLoad; MediaPause]).
Proof. vm_compute. reflexivity. Qed.

Lemma world_spawn c s : world (spawn c s) = exec c (world s).
Proof. unfold spawn, exec. by destruct (c (world s)). Qed.

Lemma step_settle_now_playing B k o s s' :
  step B (Settle k o) s = Some s' → now_playing (world s') = now_playing (world s).
Proof.
  intros E. step_cases E. simpl.
  match goal with H : settle _ _ _ _ = Some _ |- _ => exact (settle_now_playing _ _ _ _ _ _ H) end.
Qed.

Lemma runs_settle_now_playing B ls : ∀ s s',
  forallb is_settle ls = true → runs B ls s = Some s' →
  now_playing (world s') = now_playing (world s).
Proof.
  induction ls as [|l ls IH]; intros s s' Hl E; simpl in E.
  - by simplify_eq.
  - apply bind_Some in E as (s1 & E1 & E). simpl in Hl. apply andb_true_iff in Hl as [Hl Hls].
    rewrite (IH _ _ Hls E). destruct l; try discriminate Hl.
    exact (step_settle_now_playing _ _ _ _ _ E1).
Qed.

(** C2, as amended.  After playSong for A and then playSong for B, the
    current track, the queue and the index are those of the second call, and
    they stay so while the promises in flight settle, those of the first call
    included: no continuation writes them.  The late completion of the first
    call is not discarded, though: a search for A that finds nothing resets
    isPlaying in whatever world it comes back to. *)
Theorem latest_play_stays_current BACKEND_URL s songA queueA indexA songB queueB indexB ls s1 s2 s3 :
  step BACKEND_URL (PlaySong (Some songA) queueA indexA) s = Some s1 →
  step BACKEND_URL (PlaySong (Some songB) queueB indexB) s1 = Some s2 →
  forallb is_settle ls = true →
  runs BACKEND_URL ls s2 = Some s3 →
  now_playing (world s3)
  = (Some songB, if (0 <? length queueB)%nat then queueB else [songB], indexB)
  ∧ ∀ o w, no_candidate o = true →
           isPlaying (ps (exec (playSong_searched BACKEND_URL songA o) w)) = false.
Proof.
  intros _ E2 Hls E3. split.
  - rewrite (runs_settle_now_playing _ _ _ _ Hls E3).
    step_cases E2. rewrite world_spawn. apply playSong_now_playing.
  - intros o w Ho. destruct o as [[|[u|] results]|]; try reflexivity.
    simpl in Ho. apply negb_true_iff in Ho.
    unfold exec, playSong_searched, mbind, M_bind. simpl. by rewrite Ho.
Qed.

Lemma latest_play_stays_current_witness :
  now_playing (world after_a_settles) = (Some track_b, [track_b], 0).
Proof.
  apply (proj1 (latest_play_stays_current backend mounted track_a [] 0 track_b [] 0
                  settle_b_then_a after_play_a after_play_b after_a_settles
                  ltac:(vm_compute; reflexivity) ltac:(vm_compute; reflexivity)
                  ltac:(reflexivity) ltac:(vm_compute; reflexivity))).
Defined.

(** C2 as stated fails: track_b is playing while the search for track_a is
    still out.  When that search comes back empty, isPlaying is reset although
    the media element keeps playing track_b.  When it comes back with a
    preview instead, and that preview loads and starts, track_b is still the
    current track, but the media element is bound to the preview of track_a
    and the published duration is that of track_a. *)
Lemma stale_search_result_changes_state :
  pending playing_b_searching_a = [AwaitSearch track_a]
  ∧ currentSong (ps (world playing_b_searching_a)) = Some track_b
  ∧ isPlaying (ps (world playing_b_searching_a)) = true
  ∧ (s ← step backend (Settle 0 (SearchSettled (SearchResults []))) playing_b_searching_a;
     Some (isPlaying (ps (world s)), Audio.paused <$> audioRef (world s)))
    = Some (false, Some false)
  ∧ (s ← runs backend
           [Settle 0 (SearchSettled (SearchResults [Some "https://itunes.example/a.m4a"]));
            Settle 0 (LoadSettled true); Settle 0 (PlaySettled Resolved)]
           playing_b_searching_a;
     Some (currentSong (ps (world s)), duration (ps (world s)),
           Audio.src <$> audioRef (world s)))
    = Some (Some track_b, (30000 # 1000)%Q,
            Some "http://localhost:8001/api/audio/proxy?url=https%3A%2F%2Fitunes.example%2Fa.m4a").
Proof. vm_compute. repeat split. Qed.

Lemma keeps_setVolume x : keeps_now_playing (setVolume x).
Proof. intros v w H. exact H. Qed.
Lemma keeps_setIsMuted f : keeps_now_playing (setIsMuted f).
Proof. intros v w H. exact H. Qed.
Lemma keeps_setIsShuffled f : keeps_now_playing (setIsShuffled f).
Proof. intros v w H. exact H. Qed.
Lemma keeps_setIsRepeat f : keeps_now_playing (setIsRepeat f).
Proof. intros v w H. exact H. Qed.
Lemma keeps_setIsPlayerMinimized b : keeps_now_playing (setIsPlayerMinimized b).
Proof. intros v w H. exact H. Qed.
Lemma keeps_mount : keeps_now_playing mount.
Proof. intros v w H. exact H. Qed.

Lemma keeps_valid {A} (c : M A) : keeps_now_playing c → preserves valid_world c.
Proof.
  intros Hc w H. pose proof (Hc (now_playing w) w eq_refl) as E.
  remember (snd (c w)) as w' eqn:Ew. clear Ew.
  unfold valid_world, valid_index, now_playing in *.
  injection E as E1 E2 E3. by rewrite E1, E2, E3.
Qed.

Lemma valid_playSong song songQueue index :
  play_args_ok song songQueue index = true → preserves valid_world (playSong song songQueue index).
Proof.
  intros Hok w H. destruct song as [song|]; [|exact H].
  pose proof (playSong_now_playing song songQueue index w) as E. unfold exec in E.
  remember (snd (playSong (Some song) songQueue index w)) as w' eqn:Ew. clear Ew.
  unfold valid_world, valid_index, now_playing in *.
  injection E as E1 E2 E3. rewrite E1, E2, E3.
  simpl in Hok. by destruct (0 <? length songQueue)%nat.
Qed.

Lemma play_args_ok_js_index q i song :
  js_index q i = Some song → play_args_ok (Some song) q i = true.
Proof.
  intros Hs. apply js_index_Some in Hs. simpl.
  destruct (Nat.ltb_spec 0 (length q)); [|lia].
  apply andb_true_iff. split; [apply Z.leb_le | apply Z.ltb_lt]; lia.
Qed.

Lemma valid_playNext r u : preserves valid_world (playNext r u).
Proof.
  unfold playNext. destruct (length (queue r) =? 0)%nat; [by intros w H|]. cbv zeta.
  destruct (js_index _ _) as [song|] eqn:Es; [|by intros w H].
  by apply valid_playSong, play_args_ok_js_index.
Qed.

Lemma valid_playPrevious r u : preserves valid_world (playPrevious r u).
Proof.
  unfold playPrevious. destruct (length (queue r) =? 0)%nat; [by intros w H|]. cbv zeta.
  destruct (js_index _ _) as [song|] eqn:Es; [|by intros w H].
  by apply valid_playSong, play_args_ok_js_index.
Qed.

Lemma valid_handleSongEnd h u : preserves valid_world (handleSongEnd h u).
Proof.
  unfold handleSongEnd. destruct (isRepeat h); [|apply valid_playNext].
  apply valid_playSong. by destruct (currentSong h).
Qed.

Lemma valid_tick cb u : preserves valid_world (tick cb u).
Proof.
  destruct cb as [|dur h]; [apply keeps_valid; unfold tick; keep|].
  unfold tick. apply preserves_bind; [apply preserves_gets|]. intros prev. cbv zeta.
  destruct (Qle_bool _ _); [|apply keeps_valid; keep].
  apply preserves_bind; [apply valid_handleSongEnd|]. intros p. apply keeps_valid. keep.
Qed.

Lemma valid_addToQueue songs : preserves valid_world (addToQueue songs).
Proof.
  intros w H. unfold valid_world, valid_index in *. simpl.
  destruct (currentSong (ps w)); [|done].
  apply andb_true_iff in H as [H0 H1]. apply andb_true_iff. split; [exact H0|].
  apply Z.ltb_lt in H1. apply Z.ltb_lt. rewrite length_app. lia.
Qed.

Lemma keeps_media_set_volume v : keeps_now_playing (media_set_volume v).
Proof. unfold media_set_volume. keep. Qed.

Lemma keeps_seekTo time : keeps_now_playing (seekTo time).
Proof.
  unfold seekTo. apply keeps_bind; [keep|]. intros ref. destruct time, ref; keep.
Qed.

Lemma keeps_reject_loads l : keeps_now_playing (reject_loads l).
Proof. intros v. apply preserves_reject_loads. intros song. apply keeps_play_failed. Qed.

Ltac keep_more :=
  repeat first
    [ keep_step
    | apply keeps_media_set_volume
    | apply keeps_seekTo
    | apply keeps_reject_loads
    | apply keeps_media_error_event
    | apply keeps_setVolume
    | apply keeps_setIsMuted
    | apply keeps_setIsShuffled
    | apply keeps_setIsRepeat
    | apply keeps_setIsPlayerMinimized
    | apply keeps_mount ].

Lemma valid_step B l s s' :
  call_ok l = true → step B l s = Some s' →
  valid_world (world s) → valid_world (world s').
Proof.
  intros Hok E H. destruct l; try discriminate Hok; step_cases E;
    try (first [apply preserves_run | apply preserves_spawn | apply preserves_exec];
         [|assumption]).
  all: try by (apply keeps_valid; keep_more).
  - by apply valid_playSong.
  - apply keeps_valid, keeps_resumeSong.
  - apply keeps_valid. unfold togglePlayPause. keep_more; apply keeps_resumeSong.
  - apply valid_playNext.
  - apply valid_playPrevious.
  - apply valid_addToQueue.
  - simpl. unfold valid_world.
    match goal with Hs : settle _ _ _ _ = Some _ |- _ =>
      apply settle_now_playing in Hs; unfold now_playing in Hs; injection Hs as E1 E2 E3 end.
    unfold valid_index. rewrite E1, E2, E3. exact H.
  - apply valid_tick.
Qed.

(** C7, as amended.  From a state whose index is valid, every step other
    than clearQueue leads to a state whose index is valid, provided playSong
    is called with an index inside the queue it sets.  After clearQueue the
    index is valid exactly when there is no current track. *)
Theorem valid_index_preserved_except_clearQueue BACKEND_URL s :
  valid_index (ps (world s)) = true →
  (∀ l s', call_ok l = true → step BACKEND_URL l s = Some s' →
           valid_index (ps (world s')) = true)
  ∧ (∀ s', step BACKEND_URL ClearQueue s = Some s' →
           (valid_index (ps (world s')) = true ↔ currentSong (ps (world s)) = None)).
Proof.
  intros H. split.
  - intros l s' Hok E. exact (valid_step _ _ _ _ Hok E H).
  - intros s' E. step_cases E. unfold valid_index. simpl.
    destruct (currentSong (ps (world s))); split; intros; done.
Qed.

Lemma valid_index_preserved_except_clearQueue_witness :
  valid_index (ps (world (default initial_system
                            (step backend (AddToQueue (inl track_a)) playing_b)))) = true.
Proof.
  destruct (valid_index_preserved_except_clearQueue backend playing_b eq_refl) as [H _].
  apply (H (AddToQueue (inl track_a))); vm_compute; reflexivity.
Defined.

(** C7 as stated fails: clearQueue while track_b plays leaves track_b current
    with an empty queue and index 0. *)
Lemma clearQueue_breaks_valid_index :
  valid_index (ps (world playing_b)) = true
  ∧ (s ← step backend ClearQueue playing_b;
     Some (currentSong (ps s.(world)), queue (ps s.(world)), currentIndex (ps s.(world)),
           valid_index (ps s.(world))))
    = Some (Some track_b, [], 0, false).
Proof. vm_compute. split; reflexivity. Qed.

(** ** Further properties of the controller *)

(** *** Tactics *)

Create HintDb compound.
#[global] Hint Unfold play_failed bind_and_load playSong
  playSong_searched handleAudioError onerror_handler media_error_event playSong_loaded
  playSong_started playSong_played playSong_retried pauseSong simulate_resume resumeSong
  resumeSong_played togglePlayPause playNext playPrevious handleSongEnd seekTo toggleMute
  toggleShuffle toggleRepeat addToQueue clearQueue unmount tick volume_effect apply_volume
  media_set_volume
  media_pause media_play media_load toast start_progress_tracking clear_current_interval : compound.

(** Preservation of [P] through an operation, the primitive writes being
    settled by [leaf]. *)
Ltac through leaf :=
  repeat first
    [ apply preserves_ret
    | apply preserves_gets
    | solve [leaf]
    | apply preserves_bind; [|intros ?]
    | apply preserves_reject_loads; intros ?
    | match goal with
      | |- preserves _ (match Finite _ with _ => _ end) => cbv beta iota
      | |- preserves _ (match ?x with _ => _ end) => destruct x
      | |- preserves _ (if ?x then _ else _) => destruct x
      | |- preserves _ (let _ := _ in _) => cbv zeta
      end
    | progress autounfold with compound ].

(** A step keeps [P] when its operation does: the case of one label.  What
    is left to show is that the operation of the label keeps [P]. *)
Ltac enter_case P E H :=
  step_cases E;
  lazymatch goal with
  | Hs : settle _ _ _ _ = Some (_, _) |- _ =>
      unfold settle in Hs; apply bind_Some in Hs as (? & Hc & Hs);
      injection Hs as Hs; simpl;
      match type of Hs with ?c ?w = (_, ?w') =>
        replace w' with (snd (c w)) by (rewrite Hs; reflexivity);
        assert (preserves P c) as Hp;
        [ clear Hs;
          match type of Hc with continuation _ ?r ?p ?o = _ =>
            destruct p, o, r; simplify_eq/= end
        | apply Hp; exact H ]
      end
  | |- _ => first [apply preserves_run | apply preserves_spawn | apply preserves_exec];
            [|exact H]
  end.

(** Evaluation of an operation on a world, symbolic or not. *)
Ltac ev :=
  cbv beta iota zeta delta
    [exec result gets modify with_ps emit with_audio mbind mret M_bind M_ret fst snd
     fmap option_fmap option_map negb
     setCurrentSong setIsPlaying setCurrentTime setDuration setVolume setIsMuted setIsShuffled
     setIsRepeat setQueue setCurrentIndex setIsPlayerMinimized
     media_pause media_play media_load media_set_currentTime media_set_crossOrigin
     media_set_src media_set_volume media_set_onerror setInterval clearInterval
     set_intervalRef clear_current_interval start_progress_tracking toast play_failed
     bind_and_load playSong playSong_searched handleAudioError onerror_handler
     media_error_event playSong_loaded playSong_started playSong_played playSong_retried
     pauseSong simulate_resume resumeSong resumeSong_played togglePlayPause playNext
     playPrevious handleSongEnd seekTo toggleMute toggleShuffle toggleRepeat addToQueue
     clearQueue apply_volume volume_effect mount unmount tick
     ps audioRef intervalRef timers nextTimer trace world pending run option_list
     spotify_id name artist duration_ms genres preview_url
     currentSong isPlaying currentTime duration volume isMuted isShuffled isRepeat queue
     currentIndex isPlayerMinimized
     Audio.src Audio.currentTime Audio.paused Audio.crossOrigin Audio.duration Audio.volume
     Audio.onerror] in *.

Ltac volume_leaf :=
  let w := fresh "w" in
  let Hw := fresh "Hw" in
  let a := fresh "a" in
  let Ha := fresh "Ha" in
  unfold preserves, volume_applied, effective_volume;
  intros w Hw; destruct w as [? [?|] ? ? ? ?]; ev; intros a Ha Hr; simplify_eq;
  apply (Hw _ eq_refl Hr).

Ltac same_leaf :=
  let w := fresh "w" in
  let Hw := fresh "Hw" in
  intros w Hw; exact Hw.

Ltac track_leaf :=
  let w := fresh "w" in
  let Hw := fresh "Hw" in
  intros w Hw; first [exact Hw | unfold has_track; ev; discriminate].

Ltac stop_leaf :=
  let w := fresh "w" in
  let Hw := fresh "Hw" in
  intros w Hw; first [exact Hw | reflexivity].

(** *** The concrete systems are reachable *)


Lemma playing_b_is_reachable : reachable backend playing_b.
Proof.
  apply (reachable_runs backend start_b initial_system); [apply reachable_init|].
  vm_compute. reflexivity.
Qed.

Lemma after_play_a_is_reachable : reachable backend after_play_a.
Proof.
  apply (reachable_runs backend [Mount; PlaySong (Some track_a) [] 0] initial_system);
    [apply reachable_init|].
  vm_compute. reflexivity.
Qed.

(** *** The volume of the element *)

Lemma volume_effect_applies {A} (c : M A) w : volume_applied (exec (c;; volume_effect) w).
Proof.
  unfold volume_applied, effective_volume, exec, mbind, M_bind. destruct (c w) as [x w1].
  intros a.
  destruct w1 as [[cs ip ct du vo mu sh re qu ci mi] [a1|] i tm n tr]; ev; [|discriminate].
  destruct (in_unit_range (if mu then 0%Q else vo)) eqn:Hr; [|destruct i]; ev;
    intros Ha Hr'; [by simplify_eq | congruence..].
Qed.

Lemma volume_applied_step B l s s' :
  step B l s = Some s' → volume_applied (world s) → volume_applied (world s').
Proof.
  intros E H.
  destruct l;
    first [ solve [enter_case volume_applied E H; through volume_leaf]
          | step_cases E; apply volume_effect_applies ].
Qed.

Lemma reachable_volume_applied B s : reachable B s → volume_applied (world s).
Proof.
  induction 1 as [|l s s' _ IH E]; [by intros a Ha|].
  exact (volume_applied_step _ _ _ _ E IH).
Qed.

Lemma in_unit_range_true v : (0 <= v)%Q → (v <= 1)%Q → in_unit_range v = true.
Proof.
  intros H0 H1. unfold in_unit_range. apply andb_true_iff. split; by apply Qle_bool_iff.
Qed.

(** X1.  In every reachable state the media element, once created, has the
    volume the volume effect computes from the state cells (0 while muted,
    the volume cell otherwise), provided that is a volume the element takes,
    one from 0 to 1. *)
Theorem element_volume_is_effective_volume BACKEND_URL s a :
  reachable BACKEND_URL s → audioRef (world s) = Some a →
  let v := if isMuted (ps (world s)) then 0%Q else volume (ps (world s)) in
  (0 <= v)%Q → (v <= 1)%Q → Audio.volume a = v.
Proof.
  intros R Ha v H0 H1.
  exact (reachable_volume_applied _ _ R a Ha (in_unit_range_true _ H0 H1)).
Qed.

Lemma element_volume_is_effective_volume_witness :
  Audio.volume element_b
  = if isMuted (ps (world playing_b)) then 0%Q else volume (ps (world playing_b)).
Proof.
  exact (element_volume_is_effective_volume backend playing_b element_b
           playing_b_is_reachable ltac:(vm_compute; reflexivity)
           ltac:(vm_compute; discriminate) ltac:(vm_compute; discriminate)).
Defined.

(** X2.  In a reachable state whose volume cell is between 0 and 1,
    toggleMute called twice gives back the same system: state cells, element
    volume, intervals and trace. *)
Theorem toggleMute_twice_restores BACKEND_URL s :
  reachable BACKEND_URL s →
  (0 <= volume (ps (world s)))%Q → (volume (ps (world s)) <= 1)%Q →
  runs BACKEND_URL [ToggleMute; ToggleMute] s = Some s.
Proof.
  intros R H0 H1. pose proof (reachable_volume_applied _ _ R) as H.
  pose proof (in_unit_range_true _ H0 H1) as Hv.
  assert (in_unit_range 0 = true) as Hz by reflexivity.
  unfold volume_applied, effective_volume in H.
  destruct s as [[[cs ip ct du vo mu sh re qu ci mi] [[sr ti pa co dr vl oe]|] i tm n tr] pend];
    cbn [runs step mbind option_bind]; ev; [|by destruct mu].
  specialize (H _ eq_refl).
  destruct mu; ev; rewrite ?Hv, ?Hz in *; ev; rewrite ?Hv, ?Hz; ev;
    specialize (H eq_refl); by subst vl.
Qed.

Lemma toggleMute_twice_restores_witness :
  runs backend [ToggleMute; ToggleMute] playing_b = Some playing_b.
Proof.
  exact (toggleMute_twice_restores backend playing_b playing_b_is_reachable
           ltac:(vm_compute; discriminate) ltac:(vm_compute; discriminate)).
Defined.

(** *** A call of playSong run to its end *)

Lemma singleton_after_clear (tm : gmap positive Timer) i n cb :
  (∀ j c, tm !! j = Some c → i = Some j) →
  <[n := cb]> (match i with Some h => delete h tm | None => tm end) = {[ n := cb ]}.
Proof.
  intros H. apply map_eq. intros j. destruct (decide (j = n)) as [->|Hne].
  - by rewrite lookup_insert_eq, lookup_singleton_eq.
  - rewrite lookup_insert_ne, lookup_singleton_ne by done.
    destruct i as [h|].
    + destruct (delete h tm !! j) as [c|] eqn:Hj; [|done].
      apply lookup_delete_Some in Hj as [Hh Hj]. apply H in Hj. congruence.
    + destruct (tm !! j) as [c|] eqn:Hj; [|done]. apply H in Hj. congruence.
Qed.

Lemma step_settle_last B w l p o c :
  continuation B (audioRef w) p o = Some c →
  step B (Settle (length l) o) (mkSystem w (l ++ [p]))
  = Some (mkSystem (exec c w) (l ++ option_list (result c w))).
Proof.
  intros Hc. cbn [step world pending]. rewrite list_lookup_middle by done.
  cbn [mbind option_bind]. unfold settle. rewrite Hc. cbn [mbind option_bind].
  unfold exec, result. destruct (c w) as [p' w']. simpl.
  by rewrite delete_middle, app_nil_r.
Qed.

Lemma runs_cons B l ls s : runs B (l :: ls) s = step B l s ≫= runs B ls.
Proof. reflexivity. Qed.

Lemma spawn_eq c w l :
  spawn c (mkSystem w l) = mkSystem (exec c w) (l ++ option_list (result c w)).
Proof. unfold spawn, exec, result. simpl. by destruct (c w). Qed.

Lemma step_PlaySong B song songQueue index w l :
  step B (PlaySong song songQueue index) (mkSystem w l)
  = Some (mkSystem (exec (playSong song songQueue index) w)
            (l ++ option_list (result (playSong song songQueue index) w))).
Proof. cbn [step]. by rewrite spawn_eq. Qed.





Lemma truthy_proxy_url B x : truthy (Some (API B ++ "/audio/proxy?url=" ++ x)) = true.
Proof. by destruct (API B). Qed.

(** X5.  playSong on a song without preview URL whose search returns a first result
    with a previewUrl: the element is bound to the backend proxy URL of that
    preview (API/audio/proxy?url= and the encoded URL), the load is awaited,
    and one HTTP request was sent, the search. *)
Theorem found_preview_is_played_through_proxy BACKEND_URL s a song found others songQueue index :
  audioRef (world s) = Some a →
  truthy (preview_url song) = false → found ≠ EmptyString →
  ∃ s' a',
    runs BACKEND_URL
      [PlaySong (Some song) songQueue index;
       Settle (length (pending s)) (SearchSettled (SearchResults (Some found :: others)))] s
    = Some s'
    ∧ pending s'
      = (pending s
         ++ [AwaitCanPlay song
               (API BACKEND_URL ++ "/audio/proxy?url=" ++ encodeURIComponent found)])%list
    ∧ isPlaying (ps (world s')) = false
    ∧ audioRef (world s') = Some a'
    ∧ Audio.src a' = API BACKEND_URL ++ "/audio/proxy?url=" ++ encodeURIComponent found
    ∧ Audio.crossOrigin a' = Some "anonymous"
    ∧ filter is_http (trace (world s'))
      = (HttpGet ("https://itunes.apple.com/search?term="
                  ++ encodeURIComponent (name song ++ " " ++ artist song)
                  ++ "&media=music&entity=song&limit=1")
         :: filter is_http (trace (world s))).
Proof.
  intros Ha Hp Hne.
  assert (truthy (Some found) = true) as Htr.
  { simpl. destruct (String.eqb_spec found EmptyString); [contradiction|reflexivity]. }
  destruct s as [[p ar i tm n tr] pend]. simpl in Ha. subst ar.
  cbn [world pending]. rewrite runs_cons, step_PlaySong. cbn [mbind option_bind].
  unfold playSong. rewrite Hp. ev.
  rewrite runs_cons. erewrite step_settle_last; [|reflexivity]. cbn [mbind option_bind runs].
  unfold playSong_searched, bind_and_load. rewrite Htr. ev.
  rewrite truthy_proxy_url. ev.
  eexists _, _. repeat split.
Qed.

Lemma found_preview_is_played_through_proxy_witness :
  ∃ s' a', runs backend
             [PlaySong (Some track_a) [] 0;
              Settle 0 (SearchSettled (SearchResults [Some "https://p.example/a.m4a"]))]
             mounted
           = Some s'
           ∧ audioRef (world s') = Some a'
           ∧ Audio.src a'
             = API backend ++ "/audio/proxy?url=" ++ encodeURIComponent "https://p.example/a.m4a".
Proof.
  destruct (found_preview_is_played_through_proxy backend mounted element_mounted track_a
              "https://p.example/a.m4a" [] [] 0
              ltac:(vm_compute; reflexivity) ltac:(reflexivity) ltac:(discriminate))
    as (s' & a' & Hr & _ & _ & Ha & Hs & _).
  exists s', a'. split; [exact Hr|]. split; [exact Ha | exact Hs].
Defined.

(** X6.  Neither a call of playSong nor any of its continuations writes the
    published currentTime, the volume, or the mute, shuffle, repeat and
    minimized flags: a new track starts with the elapsed time of the old one
    until the next poll. *)
Theorem play_leaves_elapsed_time_alone BACKEND_URL l s s' :
  match l with PlaySong _ _ _ | Settle _ _ => True | _ => False end →
  step BACKEND_URL l s = Some s' →
  beside_playback (world s') = beside_playback (world s).
Proof.
  intros Hl E.
  assert (beside_playback (world s) = beside_playback (world s)) as H by reflexivity.
  revert H. generalize (beside_playback (world s)) at 2 3. intros v H.
  destruct l; try contradiction;
    enter_case (λ w, beside_playback w = v) E H; through same_leaf.
Qed.

Lemma play_leaves_elapsed_time_alone_witness :
  beside_playback (world replay_b) = beside_playback (world playing_b).
Proof.
  exact (play_leaves_elapsed_time_alone backend (PlaySong (Some track_b) [] 0)
           playing_b replay_b I ltac:(vm_compute; reflexivity)).
Defined.

(** *** The current track *)

Lemma has_track_step B l s s' :
  step B l s = Some s' → has_track (world s) → has_track (world s').
Proof.
  intros E H.
  destruct l; enter_case has_track E H; through track_leaf.
Qed.

(** X7.  No step of the controller clears the current track: once a song is
    current, some song stays current (clearQueue, errors and unmount
    included). *)
Theorem current_track_is_never_dropped BACKEND_URL l s s' :
  step BACKEND_URL l s = Some s' →
  currentSong (ps (world s)) ≠ None → currentSong (ps (world s')) ≠ None.
Proof. apply has_track_step. Qed.

Lemma current_track_is_never_dropped_witness :
  currentSong (ps (world paused_b)) ≠ None.
Proof.
  exact (current_track_is_never_dropped backend PauseSong playing_b paused_b
           ltac:(vm_compute; reflexivity) ltac:(vm_compute; discriminate)).
Defined.


(** X9.  The ended listener of the element is the handleSongEnd of the first
    render (line 95), whose queue is empty and repeat off: an ended event
    changes nothing, whatever the queue and the repeat flag are by then. *)
Theorem ended_event_changes_nothing BACKEND_URL u s :
  audioRef (world s) ≠ None → step BACKEND_URL (MediaEnded u) s = Some s.
Proof.
  intros Ha. destruct s as [w pend]. simpl in Ha. cbn [step world]. destruct (audioRef w); [|done].
  cbn [mbind option_bind]. by rewrite spawn_eq, app_nil_r.
Qed.

Lemma ended_event_changes_nothing_witness :
  step backend (MediaEnded 0) playing_b = Some playing_b.
Proof.
  exact (ended_event_changes_nothing backend 0 playing_b ltac:(vm_compute; discriminate)).
Defined.

(** X10.  handleSongEnd with repeat on replays the current song through playSong
    without a queue argument: the queue becomes that one song and the index
    0, and isPlaying is false until the play promise resolves. *)
Theorem repeat_collapses_queue h u song w :
  isRepeat h = true → currentSong h = Some song →
  now_playing (exec (handleSongEnd h u) w) = (Some song, [song], 0)
  ∧ isPlaying (ps (exec (handleSongEnd h u) w)) = false.
Proof.
  intros Hr Hc. unfold handleSongEnd. rewrite Hr, Hc. split.
  - by rewrite playSong_now_playing.
  - unfold playSong. do 4 (rewrite exec_bind; cbv beta).
    assert (preserves (λ w, isPlaying (ps w) = false)
              (if negb (truthy (preview_url song))
               then toast Info ("Searching for preview of " ++ quoted (name song) ++ "...");;
                    emit (HttpGet ("https://itunes.apple.com/search?term="
                                   ++ encodeURIComponent (name song ++ " " ++ artist song)
                                   ++ "&media=music&entity=song&limit=1"));;
                    mret (Some (AwaitSearch song))
               else bind_and_load song (preview_url song))) as Hp by through same_leaf.
    apply Hp. reflexivity.
Qed.

Lemma repeat_collapses_queue_witness :
  now_playing (exec (handleSongEnd repeating_b 0) (world playing_b))
  = (Some track_b, [track_b], 0)
  ∧ isPlaying (ps (exec (handleSongEnd repeating_b 0) (world playing_b))) = false.
Proof.
  exact (repeat_collapses_queue repeating_b 0 track_b (world playing_b) eq_refl eq_refl).
Defined.

(** *** Pause, resume and toggle *)

(** X11.  pauseSong in a reachable state: isPlaying is false, the element is paused,
    no promise is added, and no interval is left that could tick. *)
Theorem pause_stops_every_interval BACKEND_URL s s' :
  reachable BACKEND_URL s → step BACKEND_URL PauseSong s = Some s' →
  isPlaying (ps (world s')) = false
  ∧ Audio.paused <$> audioRef (world s') = (λ _, true) <$> audioRef (world s)
  ∧ pending s' = pending s
  ∧ ∀ handle u, step BACKEND_URL (Tick handle u) s' = None.
Proof.
  intros R E. pose proof (pauseSong_timers _ (reachable_tracked _ _ R)) as Ht.
  step_cases E. split; [|split; [|split]].
  - destruct s as [[p [a|] i tm n tr] pend]; destruct i; reflexivity.
  - destruct s as [[p [a|] i tm n tr] pend]; destruct i; reflexivity.
  - reflexivity.
  - intros handle u. cbn [step]. change (world (run pauseSong s)) with (exec pauseSong (world s)).
    rewrite Ht. by rewrite lookup_empty.
Qed.

Lemma pause_stops_every_interval_witness :
  isPlaying (ps (world paused_b)) = false
  ∧ ∀ handle u, step backend (Tick handle u) paused_b = None.
Proof.
  destruct (pause_stops_every_interval backend playing_b paused_b playing_b_is_reachable
              ltac:(vm_compute; reflexivity)) as (Hp & _ & _ & Ht).
  split; [exact Hp | exact Ht].
Defined.

Lemma resume_without_track B h s :
  isPlaying (ps (world s)) = false → currentSong (ps (world s)) = None →
  step B (TogglePlayPause h) s = Some s ∧ step B (ResumeSong h) s = Some s.
Proof.
  intros Hp Hc. destruct s as [w pend]. cbn [step world]. simpl in Hp, Hc.
  unfold togglePlayPause, resumeSong. rewrite Hp, Hc, spawn_eq.
  unfold exec, result, mret, M_ret. simpl. by rewrite app_nil_r.
Qed.

(** X12.  Without a current track and while nothing plays, togglePlayPause and
    resumeSong do nothing at all: the system after the call is the system
    before it. *)
Theorem toggle_without_track_does_nothing BACKEND_URL h s :
  isPlaying (ps (world s)) = false → currentSong (ps (world s)) = None →
  step BACKEND_URL (TogglePlayPause h) s = Some s
  ∧ step BACKEND_URL (ResumeSong h) s = Some s.
Proof. apply resume_without_track. Qed.

Lemma toggle_without_track_does_nothing_witness :
  step backend (TogglePlayPause initial_state) mounted = Some mounted
  ∧ step backend (ResumeSong initial_state) mounted = Some mounted.
Proof.
  exact (toggle_without_track_does_nothing backend initial_state mounted
           ltac:(vm_compute; reflexivity) ltac:(vm_compute; reflexivity)).
Defined.

(** X13.  resumeSong with a current track but no element or no source bound (lines
    543-562): playback is simulated, isPlaying is set at once, nothing is
    awaited, and the one interval left is the simulated cursor over the
    published duration. *)
Theorem resume_without_source_simulates BACKEND_URL h s song :
  reachable BACKEND_URL s → currentSong (ps (world s)) = Some song →
  match audioRef (world s) with Some a => Audio.src a = EmptyString | None => True end →
  ∃ s', step BACKEND_URL (ResumeSong h) s = Some s'
        ∧ pending s' = pending s
        ∧ isPlaying (ps (world s')) = true
        ∧ audioRef (world s') = audioRef (world s)
        ∧ timers (world s')
          = {[ nextTimer (world s) := SimulatedCursor (duration (ps (world s))) h ]}.
Proof.
  intros R Hc Ha. pose proof (reachable_tracked _ _ R) as Ht. clear R.
  destruct s as [[p ar i tm n tr] pend]. simpl in Hc, Ha.
  pose proof (singleton_after_clear tm i n (SimulatedCursor (duration p) h) Ht) as Hs.
  cbn [step world]. rewrite spawn_eq. unfold resumeSong. cbn [ps]. rewrite Hc.
  destruct ar as [[sr ti pa co dr vl oe]|]; [simpl in Ha; subst sr|];
    destruct i; ev; rewrite app_nil_r; eexists; repeat split; exact Hs.
Qed.

Lemma resume_without_source_simulates_witness :
  ∃ s', step backend (ResumeSong initial_state) after_play_a = Some s'
        ∧ isPlaying (ps (world s')) = true.
Proof.
  destruct (resume_without_source_simulates backend initial_state after_play_a track_a
              after_play_a_is_reachable ltac:(vm_compute; reflexivity)
              ltac:(vm_compute; reflexivity)) as (s' & Hr & _ & Hp & _).
  exists s'. split; [exact Hr | exact Hp].
Defined.

(** X14.  resumeSong with a current track and a source bound calls play() and awaits
    it: until the promise settles no state cell and no interval changes. *)
Theorem resume_with_source_awaits_play BACKEND_URL h s song a :
  currentSong (ps (world s)) = Some song →
  audioRef (world s) = Some a → Audio.src a ≠ EmptyString →
  ∃ s', step BACKEND_URL (ResumeSong h) s = Some s'
        ∧ pending s' = (pending s ++ [AwaitResume (duration (ps (world s))) h])%list
        ∧ ps (world s') = ps (world s)
        ∧ timers (world s') = timers (world s)
        ∧ trace (world s') = MediaPlay :: trace (world s).
Proof.
  intros Hc Ha Hs. destruct s as [[p ar i tm n tr] pend]. simpl in Hc, Ha. subst ar.
  destruct a as [sr ti pa co dr vl oe]. simpl in Hs.
  assert (truthy (Some sr) = true) as Htr.
  { simpl. destruct (String.eqb_spec sr EmptyString); [contradiction|reflexivity]. }
  cbn [step world]. rewrite spawn_eq. unfold resumeSong. cbn [ps]. rewrite Hc.
  ev. rewrite Htr. ev. eexists. repeat split.
Qed.

Lemma resume_with_source_awaits_play_witness :
  ∃ s', step backend (ResumeSong initial_state) paused_b = Some s'
        ∧ ps (world s') = ps (world paused_b)
        ∧ trace (world s') = MediaPlay :: trace (world paused_b).
Proof.
  destruct (resume_with_source_awaits_play backend initial_state paused_b track_b
              (default new_Audio (audioRef (world paused_b)))
              ltac:(vm_compute; reflexivity) ltac:(vm_compute; reflexivity)
              ltac:(vm_compute; discriminate)) as (s' & Hr & _ & Hp & _ & Ht).
  exists s'. split; [exact Hr|]. split; [exact Hp | exact Ht].
Defined.

(** *** Shuffle, repeat and the queue *)

(** X15.  toggleShuffle and toggleRepeat flip the live flag, and their toast
    names the opposite of the flag of the render that created the callback.
    Called from the current render the toast names the state after the call;
    called twice from one render the flag is back where it was and the same
    toast is shown twice. *)
Theorem toggle_toast_names_render_state r w :
  let shuffle_toast :=
    Toast Success ("Shuffle " ++ (if isShuffled r then "disabled" else "enabled")) in
  let repeat_toast :=
    Toast Success ("Repeat " ++ (if isRepeat r then "disabled" else "enabled")) in
  (isShuffled (ps (exec (toggleShuffle r) w)) = negb (isShuffled (ps w))
   ∧ trace (exec (toggleShuffle r) w) = shuffle_toast :: trace w
   ∧ ps (exec (toggleShuffle r;; toggleShuffle r) w) = ps w
   ∧ trace (exec (toggleShuffle r;; toggleShuffle r) w)
     = shuffle_toast :: shuffle_toast :: trace w)
  ∧ (isRepeat (ps (exec (toggleRepeat r) w)) = negb (isRepeat (ps w))
     ∧ trace (exec (toggleRepeat r) w) = repeat_toast :: trace w
     ∧ ps (exec (toggleRepeat r;; toggleRepeat r) w) = ps w
     ∧ trace (exec (toggleRepeat r;; toggleRepeat r) w)
       = repeat_toast :: repeat_toast :: trace w)
  ∧ trace (exec (toggleShuffle (ps w)) w)
    = Toast Success ("Shuffle " ++ (if isShuffled (ps (exec (toggleShuffle (ps w)) w))
                                    then "enabled" else "disabled")) :: trace w
  ∧ trace (exec (toggleRepeat (ps w)) w)
    = Toast Success ("Repeat " ++ (if isRepeat (ps (exec (toggleRepeat (ps w)) w))
                                   then "enabled" else "disabled")) :: trace w.
Proof.
  destruct w as [[cs ip ct du vo mu sh re qu ci mi] ar i tm n tr].
  destruct r as [cs' ip' ct' du' vo' mu' sh' re' qu' ci' mi'].
  cbv zeta. destruct sh, re, sh', re'; repeat split.
Qed.

(** X16.  addToQueue appends (one song or an array) to the end of the queue: every
    position of the old queue keeps its song, and the current track, the
    index, isPlaying, the element, the intervals and the promises are
    untouched. *)
Theorem addToQueue_appends BACKEND_URL songs s :
  let added := match songs with inl song => [song] | inr l => l end in
  ∃ s', step BACKEND_URL (AddToQueue songs) s = Some s'
        ∧ queue (ps (world s')) = (queue (ps (world s)) ++ added)%list
        ∧ (∀ k song, queue (ps (world s)) !! k = Some song →
                     queue (ps (world s')) !! k = Some song)
        ∧ currentSong (ps (world s')) = currentSong (ps (world s))
        ∧ currentIndex (ps (world s')) = currentIndex (ps (world s))
        ∧ isPlaying (ps (world s')) = isPlaying (ps (world s))
        ∧ audioRef (world s') = audioRef (world s)
        ∧ timers (world s') = timers (world s)
        ∧ pending s' = pending s.
Proof.
  cbv zeta. eexists. split; [reflexivity|].
  destruct s as [[[cs ip ct du vo mu sh re qu ci mi] ar i tm n tr] pend].
  repeat split. intros k song Hk. cbn. by apply lookup_app_l_Some.
Qed.

(** X17.  clearQueue empties the queue and sets the index to 0 but keeps the current
    track, isPlaying, the element and the intervals; after it playNext and
    playPrevious do nothing. *)
Theorem clearQueue_disables_skipping BACKEND_URL s :
  ∃ s', step BACKEND_URL ClearQueue s = Some s'
        ∧ queue (ps (world s')) = []
        ∧ currentIndex (ps (world s')) = 0
        ∧ currentSong (ps (world s')) = currentSong (ps (world s))
        ∧ isPlaying (ps (world s')) = isPlaying (ps (world s))
        ∧ audioRef (world s') = audioRef (world s)
        ∧ timers (world s') = timers (world s)
        ∧ (∀ u, step BACKEND_URL (PlayNext u) s' = Some s')
        ∧ (∀ u, step BACKEND_URL (PlayPrevious u) s' = Some s').
Proof.
  eexists. split; [reflexivity|].
  destruct s as [[[cs ip ct du vo mu sh re qu ci mi] ar i tm n tr] pend].
  repeat split; intros u; unfold run; cbn [step world pending]; rewrite spawn_eq; ev;
    by rewrite app_nil_r.
Qed.

(** *** Errors and unmount *)

Lemma reject_loads_trace l : ∀ w,
  trace (exec (reject_loads l) w) = (load_failure_toasts l ++ trace w)%list.
Proof.
  induction l as [|p l IH]; intros w; [reflexivity|].
  destruct p; cbn [reject_loads load_failure_toasts]; try apply IH.
  rewrite exec_bind, IH. by rewrite <- app_assoc.
Qed.

Lemma reject_loads_frame l w :
  audioRef (exec (reject_loads l) w) = audioRef w
  ∧ timers (exec (reject_loads l) w) = timers w
  ∧ intervalRef (exec (reject_loads l) w) = intervalRef w.
Proof.
  assert (preserves (λ w', (audioRef w', timers w', intervalRef w')
                           = (audioRef w, timers w, intervalRef w)) (reject_loads l)) as H
    by through same_leaf.
  specialize (H w eq_refl). unfold exec. by injection H as -> -> ->.
Qed.

Lemma reject_loads_not_playing l : preserves not_playing (reject_loads l).
Proof. through stop_leaf. Qed.

(** X18.  An error event of the element clears isPlaying and shows toasts: the
    one of handleAudioError, then the one of onerror if a handler is set,
    then, for every load that is awaited, the toast of its catch block; those
    loads are awaited no longer.  The current track, the queue, the element,
    the interval and the other promises stay as they are, so a running poll
    keeps running. *)
Theorem media_error_stops_flag_only BACKEND_URL s a :
  audioRef (world s) = Some a →
  ∃ s', step BACKEND_URL MediaError s = Some s'
        ∧ isPlaying (ps (world s')) = false
        ∧ now_playing (world s') = now_playing (world s)
        ∧ audioRef (world s') = audioRef (world s)
        ∧ timers (world s') = timers (world s)
        ∧ intervalRef (world s') = intervalRef (world s)
        ∧ pending s' = other_than_loads (pending s)
        ∧ trace (world s')
          = (load_failure_toasts (pending s)
             ++ (if Audio.onerror a
                 then [Toast Error
                         "Failed to load audio preview. The track may not be available for streaming."]
                 else [])
             ++ Toast Error "Failed to play audio" :: trace (world s))%list.
Proof.
  intros Ha. destruct s as [[p ar i tm n tr] pend]. simpl in Ha. subst ar.
  cbn [step world pending audioRef mbind option_bind]. eexists. split; [reflexivity|].
  cbn [world pending]. rewrite exec_bind.
  set (w1 := exec (media_error_event a) _).
  destruct (reject_loads_frame pend w1) as (Hr & Ht & Hi).
  rewrite Hr, Ht, Hi, reject_loads_trace, (keeps_exec _ _ (keeps_reject_loads pend)).
  split; [apply reject_loads_not_playing; subst w1; by destruct a as [sr ti pa co dr vl [|]]|].
  subst w1. destruct a as [sr ti pa co dr vl [|]]; repeat split.
Qed.

Lemma media_error_stops_flag_only_witness :
  ∃ s', step backend MediaError loading_b = Some s'
        ∧ isPlaying (ps (world s')) = false
        ∧ pending s' = other_than_loads (pending loading_b).
Proof.
  destruct (media_error_stops_flag_only backend loading_b
              (default new_Audio (audioRef (world loading_b)))
              ltac:(vm_compute; reflexivity)) as (s' & Hr & Hp & _ & _ & _ & _ & Hq & _).
  exists s'. split; [exact Hr|]. split; [exact Hp | exact Hq].
Defined.

(** X19.  The cleanup of the mount effect, run in a reachable state, leaves no
    interval behind; the state cells and the element reference stay. *)
Theorem unmount_clears_the_interval BACKEND_URL s :
  reachable BACKEND_URL s →
  ∃ s', step BACKEND_URL Unmount s = Some s' ∧ timers (world s') = ∅
        ∧ ps (world s') = ps (world s) ∧ audioRef (world s') = audioRef (world s).
Proof.
  intros R. pose proof (clear_current_interval_timers _ (reachable_tracked _ _ R)) as Ht.
  eexists. split; [reflexivity|]. split; [exact Ht|].
  destruct s as [[p ar [h|] tm n tr] pend]; split; reflexivity.
Qed.

Lemma unmount_clears_the_interval_witness :
  ∃ s', step backend Unmount playing_b = Some s' ∧ timers (world s') = ∅.
Proof.
  destruct (unmount_clears_the_interval backend playing_b playing_b_is_reachable)
    as (s' & Hr & Ht & _).
  exists s'. split; [exact Hr | exact Ht].
Defined.

(** *** Playing needs a track *)

Lemma playSong_sets_current song q i w :
  currentSong (ps (exec (playSong (Some song) q i) w)) = Some song.
Proof. exact (f_equal (λ t, fst (fst t)) (playSong_now_playing song q i w)). Qed.

Lemma playSong_sets_track_or_idles song q i : sets_track_or_idles (playSong song q i).
Proof.
  intros w H. destruct song as [song|]; [left|right; by split].
  unfold has_track. by rewrite playSong_sets_current.
Qed.

Lemma playNext_sets_track_or_idles r u : sets_track_or_idles (playNext r u).
Proof.
  unfold playNext. destruct (length (queue r) =? 0)%nat; [intros w H; right; by split|].
  cbv zeta. destruct (js_index _ _); [apply playSong_sets_track_or_idles|].
  intros w H; right; by split.
Qed.

Lemma playPrevious_sets_track_or_idles r u : sets_track_or_idles (playPrevious r u).
Proof.
  unfold playPrevious. destruct (length (queue r) =? 0)%nat; [intros w H; right; by split|].
  cbv zeta. destruct (js_index _ _); [apply playSong_sets_track_or_idles|].
  intros w H; right; by split.
Qed.

Lemma handleSongEnd_sets_track_or_idles h u : sets_track_or_idles (handleSongEnd h u).
Proof.
  unfold handleSongEnd. destruct (isRepeat h);
    [apply playSong_sets_track_or_idles | apply playNext_sets_track_or_idles].
Qed.

Lemma tick_sets_track_or_idles cb u : sets_track_or_idles (tick cb u).
Proof.
  intros w H. destruct cb as [|dur h].
  - right. destruct w as [p [[sr ti [|] co dr vl oe]|] i tm n tr]; by split.
  - unfold tick, exec, result, gets, mbind, M_bind.
    destruct (Qle_bool dur (currentTime (ps w) + 1)); [|right; by split].
    destruct (handleSongEnd_sets_track_or_idles h u w H) as [Ht|[Hn Hr]];
      unfold exec, result in *; destruct (handleSongEnd h u w) as [p w1]; simpl in *.
    + by left.
    + right. by split.
Qed.

Lemma idle_without_track_step B l s s' :
  step B l s = Some s' → idle_without_track s → idle_without_track s'.
Proof.
  intros E H Hn.
  destruct (currentSong (ps (world s))) as [song|] eqn:Hc.
  { exfalso. refine (has_track_step _ _ _ _ E _ Hn). unfold has_track. by rewrite Hc. }
  destruct (H Hc) as [Hp Hpend]. clear H.
  assert (∀ c, sets_track_or_idles c → s' = spawn c s →
               isPlaying (ps (world s')) = false ∧ pending s' = []) as Hspawn.
  { intros c Hcs ->. rewrite world_spawn in Hn |- *.
    destruct (Hcs (world s) Hp) as [Ht|[Hi Hr]]; [contradiction|].
    split; [exact Hi|]. destruct s as [w pend]. rewrite spawn_eq. simpl in *.
    by rewrite Hpend, Hr. }
  assert (∀ c : M unit, preserves not_playing c → s' = run c s →
               isPlaying (ps (world s')) = false ∧ pending s' = []) as Hrun.
  { intros c Hcs ->. split; [exact (Hcs _ Hp) | exact Hpend]. }
  destruct l; step_cases E.
  all: try (eapply Hrun; [|reflexivity]; through stop_leaf; fail).
  all: try (eapply Hspawn; [|reflexivity];
            first [ apply playSong_sets_track_or_idles | apply playNext_sets_track_or_idles
                  | apply playPrevious_sets_track_or_idles | apply tick_sets_track_or_idles
                  | apply handleSongEnd_sets_track_or_idles ]; fail).
  - destruct (resume_without_track B h s Hp Hc) as [_ Er].
    cbn [step] in Er. injection Er as ->. by split.
  - destruct (resume_without_track B h s Hp Hc) as [Et _].
    cbn [step] in Et. injection Et as ->. by split.
  - match goal with Hk : pending s !! _ = Some _ |- _ => rewrite Hpend in Hk; discriminate Hk end.
  - cbn [world pending]. rewrite Hpend. split; [|reflexivity].
    match goal with |- isPlaying (ps (exec ?c _)) = false =>
      assert (preserves not_playing c) as Hc' by through stop_leaf; exact (Hc' _ Hp) end.
Qed.

Lemma reachable_idle_without_track B s : reachable B s → idle_without_track s.
Proof.
  induction 1 as [|l s s' _ IH E]; [by split|].
  exact (idle_without_track_step _ _ _ _ E IH).
Qed.

(** X20.  In every reachable state, isPlaying being set or a promise of
    playSong or resumeSong being out implies that there is a current
    track. *)
Theorem playing_only_with_a_track BACKEND_URL s :
  reachable BACKEND_URL s →
  isPlaying (ps (world s)) = true ∨ pending s ≠ [] →
  currentSong (ps (world s)) ≠ None.
Proof.
  intros R Hp Hc. destruct (reachable_idle_without_track _ _ R Hc) as [Hf He].
  destruct Hp as [Hp|Hp]; congruence.
Qed.

Lemma playing_only_with_a_track_witness :
  currentSong (ps (world playing_b)) ≠ None.
Proof.
  apply (playing_only_with_a_track backend playing_b playing_b_is_reachable).
  left. vm_compute. reflexivity.
Defined.

(** ** formatTime *)

Lemma Qfloor_div_60 (s : Q) : Qfloor (s / 60) = Qfloor s / 60.
Proof.
  destruct s as [p q]. unfold Qfloor, Qdiv, Qmult, Qinv. simpl.
  rewrite Z.mul_1_r, Pos2Z.inj_mul. rewrite Z.div_div by lia. reflexivity.
Qed.

Lemma Qfloor_minus_Z (x : Q) (m : Z) : Qfloor (x - inject_Z m) = Qfloor x - m.
Proof.
  destruct x as [p q]. unfold Qfloor, Qminus, Qplus, Qopp, inject_Z.
  cbn [Qnum Qden]. rewrite Pos.mul_1_r, Z.mul_1_r.
  rewrite Z.div_add by lia. lia.
Qed.

Lemma Qtrunc_nonneg (x : Q) : (0 <= x)%Q → Qtrunc x = Qfloor x.
Proof.
  destruct x as [p q]. unfold Qle, Qtrunc, Qfloor. cbn [Qnum Qden].
  intros Hp. apply Z.quot_div_nonneg; lia.
Qed.

Lemma Qfloor_rem_60 (s : Q) : (0 <= s)%Q → Qfloor (number_rem s 60) = Qfloor s mod 60.
Proof.
  intros Hs. unfold number_rem.
  assert (0 <= s / 60)%Q as H60.
  { apply Qle_shift_div_l; [reflexivity|]. rewrite Qmult_0_l. exact Hs. }
  rewrite (Qtrunc_nonneg _ H60), Qfloor_div_60.
  transitivity (Qfloor (s - inject_Z (60 * (Qfloor s / 60)))).
  - apply Qfloor_comp. rewrite inject_Z_mult. reflexivity.
  - rewrite Qfloor_minus_Z. rewrite (Z.mod_eq (Qfloor s) 60) by lia. reflexivity.
Qed.

Lemma padStart_two_digits (n : Z) :
  0 <= n < 60 → padStart 2 "0" (decimal n) = two_digits n.
Proof.
  intros Hn.
  assert (forallb (λ k, String.eqb (padStart 2 "0" (decimal (Z.of_nat k)))
                          (two_digits (Z.of_nat k))) (seq 0 60) = true) as Hall
    by (vm_compute; reflexivity).
  rewrite forallb_forall in Hall.
  specialize (Hall (Z.to_nat n)). rewrite Z2Nat.id in Hall by lia.
  apply String.eqb_eq, Hall, in_seq. lia.
Qed.

Lemma safe_size_true (q : Q) :
  (inject_Z (- 2 ^ 53) < q)%Q → (q < inject_Z (2 ^ 53))%Q → safe_size q = true.
Proof.
  intros Hlo Hhi. unfold safe_size. apply andb_true_iff. split; apply negb_true_iff.
  - destruct (Qle_bool (inject_Z (2 ^ 53)) q) eqn:E; [|reflexivity].
    apply Qle_bool_iff in E. exfalso. exact (Qlt_not_le _ _ Hhi E).
  - destruct (Qle_bool q (inject_Z (- 2 ^ 53))) eqn:E; [|reflexivity].
    apply Qle_bool_iff in E. exfalso. exact (Qlt_not_le _ _ Hlo E).
Qed.

Lemma integer_toString_safe (z : Z) :
  - 2 ^ 53 < z < 2 ^ 53 → integer_toString z = Some (decimal z).
Proof.
  intros [Hlo Hhi]. unfold integer_toString.
  rewrite safe_size_true; [reflexivity| |]; rewrite <- Zlt_Qlt; assumption.
Qed.

(** X21.  formatTime on a positive number of seconds below 2^53 prints the
    whole minutes, a colon, and the whole seconds left over as exactly two
    digits, below 60. *)
Theorem formatTime_minutes_and_seconds (s : Q) :
  (0 < s)%Q → (s < inject_Z (2 ^ 53))%Q →
  formatTime (Some s)
  = Some (decimal (Qfloor s / 60) ++ ":" ++ two_digits (Qfloor s mod 60)).
Proof.
  intros Hs Hb. unfold formatTime.
  destruct (Qeq_bool s 0) eqn:E.
  { apply Qeq_bool_iff in E. rewrite E in Hs. discriminate. }
  rewrite safe_size_true; [|apply Qlt_trans with 0%Q; [reflexivity|exact Hs]|exact Hb].
  cbv zeta. rewrite Qfloor_div_60, Qfloor_rem_60 by (apply Qlt_le_weak, Hs).
  assert (0 ≤ Qfloor s < 2 ^ 53) as Hf.
  { split.
    - change 0 with (Qfloor 0). apply Qfloor_resp_le, Qlt_le_weak, Hs.
    - rewrite Zlt_Qlt. apply Qle_lt_trans with s; [apply Qfloor_le | exact Hb]. }
  assert (0 ≤ Qfloor s / 60 ≤ Qfloor s) as Hm.
  { split; [apply Z.div_pos; lia|]. apply Z.div_le_upper_bound; lia. }
  pose proof (Z.mod_pos_bound (Qfloor s) 60 ltac:(lia)) as Hr.
  rewrite !integer_toString_safe by lia. cbn [mbind option_bind].
  rewrite padStart_two_digits by exact Hr. reflexivity.
Qed.

Lemma formatTime_minutes_and_seconds_witness :
  formatTime (Some 125.5%Q)
  = Some (decimal (Qfloor 125.5 / 60) ++ ":" ++ two_digits (Qfloor 125.5 mod 60)).
Proof. exact (formatTime_minutes_and_seconds 125.5%Q eq_refl eq_refl). Defined.

(** ** The play button of a song card *)

Lemma findIndex_from_found P l : ∀ i,
  existsb P l = true →
  ∃ k x, findIndex_from P l i = i + Z.of_nat k ∧ l !! k = Some x ∧ P x = true
         ∧ ∀ j y, (j < k)%nat → l !! j = Some y → P y = false.
Proof.
  induction l as [|a l IH]; intros i H; [discriminate|].
  simpl in *. destruct (P a) eqn:E.
  - exists 0%nat, a. repeat split; [lia|exact E|]. intros j y Hj. lia.
  - simpl in H. destruct (IH (i + 1) H) as (k & x & H1 & H2 & H3 & H4).
    exists (S k), x. repeat split; [lia|exact H2|exact H3|].
    intros [|j] y Hj Hy; simpl in Hy.
    + by simplify_eq.
    + apply (H4 j); [lia|exact Hy].
Qed.

Lemma findIndex_from_missing P l : ∀ i,
  existsb P l = false → findIndex_from P l i = -1.
Proof.
  induction l as [|a l IH]; intros i H; [reflexivity|].
  simpl in *. apply orb_false_iff in H as [-> H]. by apply IH.
Qed.

(** X22.  The play button of a card inside a playlist that holds a song with the
    spotify_id of the card: playSong gets the songs of the playlist as queue
    and the first position with that spotify_id as index, so the index is
    valid and the queue entry there has the id of the current track. *)
Theorem handlePlaySong_starts_at_the_card_position song pl playlist_songs w :
  songs pl = Some playlist_songs →
  existsb (λ s, String.eqb (spotify_id s) (spotify_id song)) playlist_songs = true →
  let w' := exec (handlePlaySong song (Some pl)) w in
  ∃ k same,
    now_playing w' = (Some song, playlist_songs, Z.of_nat k)
    ∧ playlist_songs !! k = Some same
    ∧ spotify_id same = spotify_id song
    ∧ (∀ j y, (j < k)%nat → playlist_songs !! j = Some y → spotify_id y ≠ spotify_id song)
    ∧ valid_index (ps w') = true.
Proof.
  intros Hs Hex w'. subst w'. unfold handlePlaySong. rewrite Hs. cbv zeta.
  destruct (findIndex_from_found _ _ 0 Hex) as (k & x & H1 & H2 & H3 & H4).
  unfold findIndex. rewrite H1, Z.add_0_l.
  pose proof (playSong_now_playing song playlist_songs (Z.of_nat k) w) as Hn.
  assert (0 < length playlist_songs)%nat as Hlen by (apply lookup_lt_Some in H2; lia).
  destruct (Nat.ltb_spec 0 (length playlist_songs)); [|lia].
  exists k, x. split; [exact Hn|]. split; [exact H2|].
  split; [by apply String.eqb_eq|]. split.
  - intros j y Hj Hy. apply String.eqb_neq. by apply (H4 j).
  - remember (exec (playSong (Some song) playlist_songs (Z.of_nat k)) w) as w1.
    unfold now_playing in Hn. unfold valid_index.
    injection Hn as -> -> ->. apply lookup_lt_Some in H2.
    apply andb_true_iff. split; [apply Z.leb_le|apply Z.ltb_lt]; lia.
Qed.

Lemma handlePlaySong_starts_at_the_card_position_witness :
  ∃ k, now_playing (exec (handlePlaySong track_b (Some playlist_ab)) initial_world)
       = (Some track_b, [track_a; track_b], Z.of_nat k).
Proof.
  destruct (handlePlaySong_starts_at_the_card_position track_b playlist_ab
              [track_a; track_b] initial_world eq_refl ltac:(vm_compute; reflexivity))
    as (k & same & Hn & _).
  exists k. exact Hn.
Defined.

(** X23.  The play button of a card whose song is not among the songs of its
    playlist: findIndex gives -1 and playSong is called with it, so the
    current index is -1, outside the queue, and no queue entry is at the
    current index. *)
Theorem handlePlaySong_outside_its_playlist song pl playlist_songs w :
  songs pl = Some playlist_songs →
  existsb (λ s, String.eqb (spotify_id s) (spotify_id song)) playlist_songs = false →
  let w' := exec (handlePlaySong song (Some pl)) w in
  now_playing w'
  = (Some song, if (0 <? length playlist_songs)%nat then playlist_songs else [song], -1)
  ∧ valid_index (ps w') = false
  ∧ js_index (queue (ps w')) (currentIndex (ps w')) = None.
Proof.
  intros Hs Hex w'. subst w'. unfold handlePlaySong. rewrite Hs. cbv zeta.
  unfold findIndex. rewrite (findIndex_from_missing _ _ 0 Hex).
  pose proof (playSong_now_playing song playlist_songs (-1) w) as Hn.
  split; [exact Hn|].
  remember (exec (playSong (Some song) playlist_songs (-1)) w) as w1.
  unfold now_playing in Hn. unfold valid_index.
  injection Hn as -> -> ->. split; reflexivity.
Qed.

Lemma handlePlaySong_outside_its_playlist_witness :
  valid_index (ps (exec (handlePlaySong track_c (Some playlist_ab)) initial_world)) = false.
Proof.
  destruct (handlePlaySong_outside_its_playlist track_c playlist_ab
              [track_a; track_b] initial_world eq_refl ltac:(vm_compute; reflexivity))
    as (_ & Hv & _).
  exact Hv.
Defined.

(** ** The favourite genres *)

Lemma includes_elem_of l x : includes l x = true ↔ x ∈ l.
Proof.
  unfold includes. rewrite existsb_exists. split.
  - intros (y & Hin & E). apply String.eqb_eq in E. subst. by apply list_elem_of_In.
  - intros H. exists x. split; [by apply list_elem_of_In|apply String.eqb_refl].
Qed.

Lemma filter_other_than_absent (l : list string) (x : string) :
  x ∉ l → filter (λ g, g ≠ x) l = l.
Proof.
  induction l as [|y l IH]; intros Hn; [reflexivity|].
  apply not_elem_of_cons in Hn as [Hx Hl]. rewrite filter_cons.
  destruct (decide (y ≠ x)) as [_|Hy]; [by rewrite IH|].
  exfalso. apply Hy. congruence.
Qed.

Lemma two_genres_distinct : NoDup (genres_of two_genres).
Proof.
  unfold genres_of. simpl. apply NoDup_cons. split.
  - intros H. apply list_elem_of_singleton in H. discriminate.
  - apply NoDup_singleton.
Qed.

Lemma jazz_is_new : id (id (newGenre two_genres)) ∉ genres_of two_genres.
Proof.
  unfold genres_of. simpl. intros H.
  apply elem_of_cons in H as [H|H]; [discriminate|].
  apply list_elem_of_singleton in H. discriminate.
Qed.

(** X24.  handleAddGenre keeps the favourite genres free of duplicates: either the
    trimmed input is empty or its lower-case form is already listed, and then
    nothing changes, or that form is appended at the end and the input field
    is cleared. *)
Theorem handleAddGenre_keeps_genres_distinct trim toLowerCase st :
  NoDup (genres_of st) →
  let g := toLowerCase (trim (newGenre st)) in
  let st' := handleAddGenre trim toLowerCase st st in
  NoDup (genres_of st')
  ∧ (st' = st ∧ (trim (newGenre st) = EmptyString ∨ g ∈ genres_of st)
     ∨ genres_of st' = (genres_of st ++ [g])%list ∧ newGenre st' = EmptyString
       ∧ trim (newGenre st) ≠ EmptyString ∧ g ∉ genres_of st).
Proof.
  intros Hnd g st'. subst g st'. unfold handleAddGenre, truthy.
  destruct (String.eqb_spec (trim (newGenre st)) EmptyString) as [E|E]; simpl.
  - split; [exact Hnd|]. left. split; [reflexivity|]. by left.
  - destruct (includes _ _) eqn:Hin; simpl.
    + split; [exact Hnd|]. left. split; [reflexivity|]. right.
      by apply includes_elem_of.
    + assert (toLowerCase (trim (newGenre st)) ∉ genres_of st) as Hnot.
      { intros H. apply includes_elem_of in H. unfold genres_of in H. congruence. }
      split.
      * unfold genres_of. simpl. apply NoDup_app. split; [exact Hnd|]. split.
        -- intros x Hx Hx'. apply list_elem_of_singleton in Hx'. by subst.
        -- apply NoDup_singleton.
      * right. repeat split; try done.
Qed.

Lemma handleAddGenre_keeps_genres_distinct_witness :
  NoDup (genres_of (handleAddGenre id id two_genres two_genres)).
Proof.
  exact (proj1 (handleAddGenre_keeps_genres_distinct id id two_genres two_genres_distinct)).
Defined.

(** X25.  handleRemoveGenre removes every occurrence of the genre and nothing else:
    the other genres stay, in their order, a list without duplicates stays
    so, and removing a genre that is not listed changes nothing. *)
Theorem handleRemoveGenre_removes genre st :
  let st' := handleRemoveGenre genre st in
  (genre ∉ genres_of st')
  ∧ (∀ g, g ≠ genre → g ∈ genres_of st' ↔ g ∈ genres_of st)
  ∧ (genres_of st' `sublist_of` genres_of st)
  ∧ (NoDup (genres_of st) → NoDup (genres_of st'))
  ∧ (genre ∉ genres_of st → st' = st).
Proof.
  intros st'. subst st'. unfold handleRemoveGenre, genres_of. simpl.
  split; [|split; [|split; [|split]]].
  - intros H. apply list_elem_of_filter in H as [H _]. done.
  - intros g Hg. rewrite list_elem_of_filter. tauto.
  - apply sublist_filter.
  - apply NoDup_filter.
  - intros Hn. destruct st as [[n e b l c] ng]. simpl in *.
    unfold set_favorite_genres. simpl. f_equal. f_equal.
    by apply filter_other_than_absent.
Qed.

(** X26.  A genre added by handleAddGenre and then removed by handleRemoveGenre
    leaves the profile as it was before; only the input field has been
    cleared. *)
Theorem added_genre_can_be_removed trim toLowerCase st :
  trim (newGenre st) ≠ EmptyString →
  let g := toLowerCase (trim (newGenre st)) in
  g ∉ genres_of st →
  handleRemoveGenre g (handleAddGenre trim toLowerCase st st)
  = mkSettingsState (profileData st) EmptyString.
Proof.
  intros Ht g Hg. subst g. unfold handleAddGenre, truthy.
  destruct (String.eqb_spec (trim (newGenre st)) EmptyString) as [E|E]; [done|].
  destruct (includes _ _) eqn:Hin.
  { apply includes_elem_of in Hin. done. }
  simpl. unfold handleRemoveGenre. simpl. f_equal.
  destruct st as [[n e b l c] ng]. unfold set_favorite_genres, genres_of in *. simpl in *.
  f_equal. rewrite filter_app. rewrite filter_cons, filter_nil.
  destruct (decide (toLowerCase (trim ng) ≠ toLowerCase (trim ng))); [done|].
  rewrite app_nil_r. by apply filter_other_than_absent.
Qed.

Lemma added_genre_can_be_removed_witness :
  handleRemoveGenre "jazz" (handleAddGenre id id two_genres two_genres)
  = mkSettingsState (profileData two_genres) EmptyString.
Proof.
  exact (added_genre_can_be_removed id id two_genres ltac:(discriminate) jazz_is_new).
Defined.

(** ** The WAV writer *)

Lemma length_le_bytes n : ∀ v, length (le_bytes n v) = n.
Proof. induction n; intros v; simpl; [reflexivity|]. by rewrite IHn. Qed.

Lemma charCode_byte c : 0 ≤ charCode c < 256.
Proof.
  unfold charCode. pose proof (N_ascii_bounded c). lia.
Qed.

Lemma write_bytes_cursor (offset : nat) (bs pre : list Z) (n : nat) :
  offset = length pre → (length bs ≤ n)%nat →
  write_bytes offset bs (pre ++ replicate n 0)%list
  = Some ((pre ++ bs) ++ replicate (n - length bs) 0)%list.
Proof.
  intros -> Hn. unfold write_bytes.
  rewrite length_app, length_replicate.
  destruct (Nat.leb_spec (length pre + length bs) (length pre + n)); [|lia].
  rewrite take_app_length. rewrite drop_app_add'  by reflexivity.
  rewrite drop_replicate. by rewrite <- app_assoc.
Qed.

Lemma writeString_cursor (s : string) : ∀ (offset : nat) (pre : list Z) (n : nat),
  offset = length pre → (String.length s ≤ n)%nat →
  writeString offset s (pre ++ replicate n 0)%list
  = Some ((pre ++ string_codes s) ++ replicate (n - String.length s) 0)%list.
Proof.
  induction s as [|c s IH]; intros offset pre n Ho Hn; simpl.
  - by rewrite app_nil_r, Nat.sub_0_r.
  - simpl in Hn. unfold setUint8. rewrite (write_bytes_cursor offset _ pre n); [|exact Ho|]. 2:{ simpl. lia. }
    cbn [mbind option_bind]. rewrite IH.
    + unfold string_codes. simpl. rewrite <- !app_assoc. simpl.
      rewrite Z.mod_small by apply charCode_byte.
      by replace (n - 1 - String.length s)%nat with (n - S (String.length s))%nat by lia.
    + rewrite length_app. simpl. lia.
    + simpl. lia.
Qed.

Lemma channels_cursor (f : nat → Z) (k : nat) : ∀ (c0 : nat) (pre : list Z) (n : nat),
  (2 * k ≤ n)%nat →
  for_each (seq c0 k) (λ channel '(offset, view),
      view ← setInt16 offset (f channel) view; Some ((offset + 2)%nat, view))
    (length pre, (pre ++ replicate n 0)%list)
  = Some ((length pre + 2 * k)%nat,
          ((pre ++ flat_map (λ channel, le_bytes 2 (f channel)) (seq c0 k))
             ++ replicate (n - 2 * k) 0)%list).
Proof.
  induction k as [|k IH]; intros c0 pre n Hn.
  - simpl. by rewrite app_nil_r, Nat.sub_0_r, Nat.add_0_r.
  - cbn [seq for_each]. cbv beta iota. unfold setInt16 in *.
    rewrite write_bytes_cursor by (simpl; lia).
    cbn [mbind option_bind].
    replace (length pre + 2)%nat with (length (pre ++ le_bytes 2 (f c0))%list)
      by (rewrite length_app, length_le_bytes; reflexivity).
    rewrite IH by (rewrite length_le_bytes; lia).
    rewrite length_app, !length_le_bytes. cbn [flat_map].
    rewrite <- !app_assoc.
    replace (n - 2 - 2 * k)%nat with (n - 2 * S k)%nat by lia.
    by replace (length pre + 2 + 2 * k)%nat with (length pre + 2 * S k)%nat by lia.
Qed.

Lemma length_flat_map_const {A B} (g : A → list B) (m : nat) (l : list A) :
  (∀ x, length (g x) = m) → length (flat_map g l) = (m * length l)%nat.
Proof.
  intros Hg. induction l as [|x l IH]; simpl; [lia|].
  rewrite length_app, Hg, IH. lia.
Qed.

Lemma length_frame_bytes buffer i :
  length (frame_bytes buffer i) = (2 * AudioBuffer.numberOfChannels buffer)%nat.
Proof.
  unfold frame_bytes. rewrite (length_flat_map_const _ 2), length_seq; [reflexivity|].
  intros x. apply length_le_bytes.
Qed.

Lemma frames_cursor (buffer : AudioBuffer.t) (m : nat) : ∀ (i0 : nat) (pre : list Z) (n : nat),
  (2 * AudioBuffer.numberOfChannels buffer * m ≤ n)%nat →
  for_each (seq i0 m) (λ i,
      for_each (seq 0 (AudioBuffer.numberOfChannels buffer)) (λ channel '(offset, view),
        view ← setInt16 offset (pcm16 (AudioBuffer.getChannelData buffer channel i)) view;
        Some ((offset + 2)%nat, view)))
    (length pre, (pre ++ replicate n 0)%list)
  = Some ((length pre + 2 * AudioBuffer.numberOfChannels buffer * m)%nat,
          ((pre ++ flat_map (frame_bytes buffer) (seq i0 m))
             ++ replicate (n - 2 * AudioBuffer.numberOfChannels buffer * m) 0)%list).
Proof.
  induction m as [|m IH]; intros i0 pre n Hn.
  - cbn [seq for_each flat_map]. by rewrite Nat.mul_0_r, Nat.sub_0_r, Nat.add_0_r, app_nil_r.
  - cbn [seq for_each].
    rewrite (channels_cursor (λ channel, pcm16 (AudioBuffer.getChannelData buffer channel i0)))
      by lia.
    cbn [mbind option_bind]. fold (frame_bytes buffer i0).
    replace (length pre + 2 * AudioBuffer.numberOfChannels buffer)%nat
      with (length (pre ++ frame_bytes buffer i0)%list)
      by (rewrite length_app, length_frame_bytes; reflexivity).
    rewrite IH by lia.
    rewrite length_app, length_frame_bytes. cbn [flat_map].
    rewrite <- !app_assoc.
    replace (n - 2 * AudioBuffer.numberOfChannels buffer
             - 2 * AudioBuffer.numberOfChannels buffer * m)%nat
      with (n - 2 * AudioBuffer.numberOfChannels buffer * S m)%nat by lia.
    by replace (length pre + 2 * AudioBuffer.numberOfChannels buffer
                + 2 * AudioBuffer.numberOfChannels buffer * m)%nat
      with (length pre + 2 * AudioBuffer.numberOfChannels buffer * S m)%nat by lia.
Qed.

Lemma audioBufferToWav_bytes (buffer : AudioBuffer.t) :
  audioBufferToWav buffer = Some (wav_bytes buffer).
Proof.
  unfold audioBufferToWav, wav_bytes. cbv zeta.
  set (d := (AudioBuffer.length buffer * AudioBuffer.numberOfChannels buffer * 2)%nat).
  change (replicate (44 + d) 0) with ([] ++ replicate (44 + d) 0)%list.
  unfold setUint16, setUint32.
  repeat (first [ rewrite writeString_cursor by (cbn; lia)
                | rewrite write_bytes_cursor by (cbn; lia) ];
          cbn [mbind option_bind]).
  rewrite !length_le_bytes. cbn [String.length].
  replace (44 + d - 4 - 4 - 4 - 4 - 4 - 2 - 2 - 4 - 4 - 2 - 2 - 4 - 4)%nat with d by lia.
  match goal with |- context [(44%nat, (?pre ++ replicate d 0)%list)] =>
    replace pre with (wav_header buffer) by (unfold wav_header; rewrite <- !app_assoc; reflexivity)
  end.
  change 44%nat with (length (wav_header buffer)) at 1.
  rewrite frames_cursor by (subst d; lia).
  cbn [mbind option_bind]. fold (wav_samples buffer).
  replace (d - 2 * AudioBuffer.numberOfChannels buffer * AudioBuffer.length buffer)%nat
    with 0%nat by (subst d; lia).
  by rewrite app_nil_r.
Qed.

Lemma uint_le_le_bytes (n : nat) : ∀ v, uint_le (le_bytes n v) = v mod 256 ^ Z.of_nat n.
Proof.
  induction n as [|n IH]; intros v.
  - simpl. by rewrite Z.mod_1_r.
  - cbn [le_bytes uint_le]. rewrite IH, Nat2Z.inj_succ, Z.pow_succ_r by lia.
    rewrite Z.rem_mul_r by lia. reflexivity.
Qed.

Lemma le_bytes_are_bytes (n : nat) : ∀ v, Forall (λ b, 0 ≤ b < 256) (le_bytes n v).
Proof.
  induction n as [|n IH]; intros v; constructor; [|apply IH].
  apply Z.mod_pos_bound. lia.
Qed.

Lemma flat_map_chunk {A} (g : A → list Z) (m : nat) (l : list A) :
  (∀ y, length (g y) = m) →
  ∀ j x r k, l !! j = Some x → (r + k ≤ m)%nat →
  take k (drop (m * j + r) (flat_map g l)) = take k (drop r (g x)).
Proof.
  intros Hg. induction l as [|a l IH]; intros j x r k Hj Hr; [done|].
  cbn [flat_map]. destruct j as [|j]; simpl in Hj.
  - simplify_eq. rewrite Nat.mul_0_r, Nat.add_0_l.
    rewrite drop_app_le by (rewrite Hg; lia).
    apply take_app_le. rewrite length_drop, Hg. lia.
  - replace (m * S j + r)%nat with (length (g a) + (m * j + r))%nat by (rewrite Hg; lia).
    rewrite drop_app_add. by apply IH.
Qed.

Lemma Qtrunc_bounded (q : Q) (n : Z) :
  (inject_Z (- n) <= q)%Q → (q <= inject_Z n)%Q → - n ≤ Qtrunc q ≤ n.
Proof.
  destruct q as [p d]. unfold Qle, Qtrunc. cbn [Qnum Qden inject_Z].
  rewrite !Z.mul_1_r. intros Hlo Hhi. split.
  - apply Z.quot_le_lower_bound; lia.
  - apply Z.quot_le_upper_bound; lia.
Qed.

Lemma clamp_bounded (x : Q) :
  (-1 <= number_max (-1) (number_min 1 x))%Q ∧ (number_max (-1) (number_min 1 x) <= 1)%Q.
Proof.
  unfold number_max, number_min.
  destruct (Qle_bool 1 x) eqn:E1.
  - destruct (Qle_bool (-1) 1) eqn:E2; split; try discriminate; try done.
  - assert (x < 1)%Q as Hx.
    { apply Qnot_le_lt. intros H. apply Qle_bool_iff in H. congruence. }
    destruct (Qle_bool (-1) x) eqn:E2.
    + split; [by apply Qle_bool_iff|by apply Qlt_le_weak].
    + split; [apply Qle_refl|discriminate].
Qed.

Lemma pcm16_range (x : Q) : -32767 ≤ pcm16 x ≤ 32767.
Proof.
  unfold pcm16. destruct (clamp_bounded x) as [Hlo Hhi].
  apply (Qtrunc_bounded _ 32767).
  - apply Qle_trans with ((-1) * 32767)%Q; [discriminate|].
    apply Qmult_le_compat_r; [exact Hlo|discriminate].
  - apply Qle_trans with (1 * 32767)%Q; [|discriminate].
    apply Qmult_le_compat_r; [exact Hhi|discriminate].
Qed.

Lemma length_wav_bytes (buffer : AudioBuffer.t) :
  length (wav_bytes buffer)
  = (44 + AudioBuffer.length buffer * AudioBuffer.numberOfChannels buffer * 2)%nat.
Proof.
  unfold wav_bytes. rewrite length_app. unfold wav_samples.
  rewrite (length_flat_map_const _ _ _ (length_frame_bytes buffer)), length_seq.
  change (length (wav_header buffer)) with 44%nat. lia.
Qed.

Lemma wav_field (buffer : AudioBuffer.t) (offset n : nat) (v : Z) :
  take n (drop offset (wav_bytes buffer)) = le_bytes n v →
  getUint offset n (wav_bytes buffer) = v mod 256 ^ Z.of_nat n.
Proof. intros Hv. unfold getUint. rewrite Hv. apply uint_le_le_bytes. Qed.

(** X27.  audioBufferToWav never writes outside the buffer it allocates: it returns
    44 + length * numberOfChannels * 2 bytes, each in 0..255. *)
Theorem audioBufferToWav_fills_its_buffer (buffer : AudioBuffer.t) :
  ∃ wav, audioBufferToWav buffer = Some wav
    ∧ length wav = (44 + AudioBuffer.length buffer * AudioBuffer.numberOfChannels buffer * 2)%nat
    ∧ Forall (λ b, 0 ≤ b < 256) wav.
Proof.
  exists (wav_bytes buffer).
  split; [apply audioBufferToWav_bytes|]. split; [apply length_wav_bytes|].
  unfold wav_bytes.
  - apply Forall_app. split.
    + unfold wav_header. repeat (apply Forall_app; split);
        first [apply le_bytes_are_bytes | repeat constructor; done].
    + unfold wav_samples. apply Forall_flat_map, Forall_forall. intros i _.
      unfold frame_bytes. apply Forall_flat_map, Forall_forall. intros c _.
      apply le_bytes_are_bytes.
Qed.

(** X28.  The header audioBufferToWav writes, read back as little-endian fields:
    the tags RIFF, WAVE, fmt and data, a 16-byte PCM format chunk (format 1,
    16 bits per sample) with the channel count, the sample rate, the byte
    rate sampleRate * channels * 2 and the block size channels * 2, and the
    two sizes 36 + data and data, each cut to the width of its field. *)
Theorem wav_header_fields (buffer : AudioBuffer.t) :
  let data := (AudioBuffer.length buffer * AudioBuffer.numberOfChannels buffer * 2)%nat in
  let channels := Z.of_nat (AudioBuffer.numberOfChannels buffer) in
  let rate := AudioBuffer.sampleRate buffer in
  ∃ wav, audioBufferToWav buffer = Some wav
    ∧ take 4 wav = string_codes "RIFF"
    ∧ getUint 4 4 wav = Z.of_nat (36 + data) mod 2 ^ 32
    ∧ take 8 (drop 8 wav) = string_codes "WAVEfmt "
    ∧ getUint 16 4 wav = 16
    ∧ getUint 20 2 wav = 1
    ∧ getUint 22 2 wav = channels mod 2 ^ 16
    ∧ getUint 24 4 wav = Qtrunc rate mod 2 ^ 32
    ∧ getUint 28 4 wav = Qtrunc (rate * inject_Z channels * 2) mod 2 ^ 32
    ∧ getUint 32 2 wav = (channels * 2) mod 2 ^ 16
    ∧ getUint 34 2 wav = 16
    ∧ take 4 (drop 36 wav) = string_codes "data"
    ∧ getUint 40 4 wav = Z.of_nat data mod 2 ^ 32.
Proof.
  intros data channels rate.
  exists (wav_bytes buffer).
  split; [apply audioBufferToWav_bytes|].
  pose proof (wav_field buffer) as Hfield.
  repeat split; try reflexivity.
  - apply (Hfield 4%nat 4%nat). reflexivity.
  - apply (Hfield 22%nat 2%nat). reflexivity.
  - apply (Hfield 24%nat 4%nat). reflexivity.
  - apply (Hfield 28%nat 4%nat). reflexivity.
  - rewrite (Hfield 32%nat 2%nat (Z.of_nat (AudioBuffer.numberOfChannels buffer * 2)));
      [|reflexivity].
    subst channels. by rewrite Nat2Z.inj_mul.
  - apply (Hfield 40%nat 4%nat). reflexivity.
Qed.

Lemma getInt16_le_bytes (v : Z) (l : list Z) (offset : nat) :
  -32768 ≤ v < 32768 →
  take 2 (drop offset l) = le_bytes 2 v → getInt16 offset l = v.
Proof.
  intros Hv Hl. unfold getInt16, getUint. rewrite Hl, uint_le_le_bytes.
  change (256 ^ Z.of_nat 2) with 65536.
  destruct (Z.ltb_spec (v mod 65536) 32768); Z.div_mod_to_equations; lia.
Qed.

Lemma wav_sample_bytes (buffer : AudioBuffer.t) (i channel : nat) :
  (i < AudioBuffer.length buffer)%nat →
  (channel < AudioBuffer.numberOfChannels buffer)%nat →
  take 2 (drop (44 + 2 * (i * AudioBuffer.numberOfChannels buffer + channel)) (wav_bytes buffer))
  = le_bytes 2 (pcm16 (AudioBuffer.getChannelData buffer channel i)).
Proof.
  intros Hi Hc. unfold wav_bytes.
  rewrite drop_app_add' by reflexivity. unfold wav_samples.
  replace (2 * (i * AudioBuffer.numberOfChannels buffer + channel))%nat
    with (2 * AudioBuffer.numberOfChannels buffer * i + 2 * channel)%nat by lia.
  rewrite (flat_map_chunk _ _ _ (length_frame_bytes buffer) i i);
    [|by rewrite lookup_seq_lt|lia].
  unfold frame_bytes.
  replace (2 * channel)%nat with (2 * channel + 0)%nat by lia.
  rewrite (flat_map_chunk _ 2 _ (λ c, length_le_bytes 2 _) channel channel);
    [reflexivity|by rewrite lookup_seq_lt|lia].
Qed.

(** X29.  The sample of frame i and channel c is stored at byte 44 + 2 * (i *
    channels + c) (frames in order, channels interleaved) and reads back as
    a signed 16-bit integer equal to the clamped sample times 32767,
    truncated; it lies between -32767 and 32767. *)
Theorem wav_samples_read_back (buffer : AudioBuffer.t) (i channel : nat) :
  (i < AudioBuffer.length buffer)%nat →
  (channel < AudioBuffer.numberOfChannels buffer)%nat →
  ∃ wav, audioBufferToWav buffer = Some wav
    ∧ getInt16 (44 + 2 * (i * AudioBuffer.numberOfChannels buffer + channel)) wav
      = pcm16 (AudioBuffer.getChannelData buffer channel i)
    ∧ -32767 ≤ getInt16 (44 + 2 * (i * AudioBuffer.numberOfChannels buffer + channel)) wav
      ≤ 32767.
Proof.
  intros Hi Hc. exists (wav_bytes buffer).
  split; [apply audioBufferToWav_bytes|].
  pose proof (pcm16_range (AudioBuffer.getChannelData buffer channel i)) as Hr.
  rewrite (getInt16_le_bytes (pcm16 (AudioBuffer.getChannelData buffer channel i)));
    [done|lia|by apply wav_sample_bytes].
Qed.

Lemma wav_samples_read_back_witness :
  ∃ wav, audioBufferToWav two_frames = Some wav
    ∧ getInt16 (44 + 2 * (1 * AudioBuffer.numberOfChannels two_frames + 1)) wav
      = pcm16 (AudioBuffer.getChannelData two_frames 1 1).
Proof.
  destruct (wav_samples_read_back two_frames 1 1 ltac:(simpl; lia) ltac:(simpl; lia))
    as (wav & Hw & Hs & _).
  exists wav. split; [exact Hw | exact Hs].
Defined.

(** X30.  While the file is shorter than 2^32 bytes the two size fields describe
    it: the RIFF size is the file length less 8 and the data size is the file
    length less the 44 bytes of the header. *)
Theorem wav_sizes_describe_the_file (buffer : AudioBuffer.t) :
  Z.of_nat (44 + AudioBuffer.length buffer * AudioBuffer.numberOfChannels buffer * 2) < 2 ^ 32 →
  ∃ wav, audioBufferToWav buffer = Some wav
    ∧ getUint 4 4 wav + 8 = Z.of_nat (length wav)
    ∧ getUint 40 4 wav + 44 = Z.of_nat (length wav).
Proof.
  intros Hsize. exists (wav_bytes buffer).
  split; [apply audioBufferToWav_bytes|].
  rewrite length_wav_bytes.
  rewrite (wav_field buffer 4 4 _ eq_refl), (wav_field buffer 40 4 _ eq_refl).
  change (256 ^ Z.of_nat 4) with (2 ^ 32).
  rewrite !Z.mod_small by lia. lia.
Qed.

Lemma wav_sizes_describe_the_file_witness :
  ∃ wav, audioBufferToWav two_frames = Some wav
    ∧ getUint 4 4 wav + 8 = Z.of_nat (length wav).
Proof.
  destruct (wav_sizes_describe_the_file two_frames ltac:(vm_compute; reflexivity))
    as (wav & Hw & Hs & _).
  exists wav. split; [exact Hw | exact Hs].
Defined.
